(** * KeySequenceParser: a shallow embedding of
      [src/lib/shared/KeySequenceParser.js] and the properties of its
      parsing pipeline.

    JavaScript strings are modelled by [string]; a character is one code
    unit, restricted to the range 0..255.  The exceptions of the source are
    modelled by an error monad that also records every call made to an
    imported helper. *)

From Stdlib Require Import String Ascii List ZArith Bool Lia Arith.
From Stdlib Require Import Permutation Sorted OrderedTypeEx.
Import ListNotations.

Local Open Scope list_scope.
Local Open Scope string_scope.

(** ** String primitives of the host language *)

Module JsString.

(** [String.prototype.startsWith], used to define the substring search. *)
Fixpoint startsWith (s pat : string) {struct pat} : bool :=
  match pat, s with
  | EmptyString, _ => true
  | String _ _, EmptyString => false
  | String p pat', String c s' => Ascii.eqb c p && startsWith s' pat'
  end.

Fixpoint indexOf_from (i : Z) (s pat : string) : Z :=
  if startsWith s pat then i
  else match s with
       | EmptyString => (-1)%Z
       | String _ s' => indexOf_from (i + 1) s' pat
       end.

(** [s.indexOf(pat)]: the index of the first occurrence of the string
    [pat] in [s], or -1 when there is none. *)
Definition indexOf (s pat : string) : Z := indexOf_from 0 s pat.

(** [s.split(sep)] for a separator of one character: the pieces between
    the separators, in order; the empty string gives one empty piece. *)
Fixpoint split (sep : ascii) (s : string) : list string :=
  match s with
  | EmptyString => [EmptyString]
  | String c s' =>
      if Ascii.eqb c sep then EmptyString :: split sep s'
      else match split sep s' with
           | [] => [String c EmptyString]
           | t :: ts => String c t :: ts
           end
  end.

(** [arr.join(sep)]. *)
Definition join (sep : string) (arr : list string) : string :=
  String.concat sep arr.

(** [s.toLowerCase()] on the letters A..Z. *)
Definition lower_char (c : ascii) : ascii :=
  let n := nat_of_ascii c in
  if (65 <=? n)%nat && (n <=? 90)%nat then ascii_of_nat (n + 32) else c.

Fixpoint toLowerCase (s : string) : string :=
  match s with
  | EmptyString => EmptyString
  | String c s' => String (lower_char c) (toLowerCase s')
  end.

(** The characters matched by [\s] among the code units below 256: tab,
    line feed, vertical tab, form feed, carriage return, space and the
    no-break space. *)
Definition is_space (c : ascii) : bool :=
  let n := nat_of_ascii c in
  ((9 <=? n)%nat && (n <=? 13)%nat) || (n =? 32)%nat || (n =? 160)%nat.

End JsString.

(** ** Regular expressions

    The constructs the two kinds of regular-expression literal of the source
    use, and a backtracking matcher for them in continuation-passing
    style: alternatives are tried from left to right and the first match
    found at the leftmost start index wins. *)

Module RegExp.

Inductive pattern : Type :=
| Bol                          (* ^        *)
| Chr (c : ascii)              (* \+       *)
| NotChr (c : ascii)           (* [^+]     *)
| OneOf (cs : list ascii)      (* [sS]     *)
| Space                        (* \s       *)
| Seq (p q : pattern)          (* pq       *)
| Alt (p q : pattern)          (* p|q      *)
| Group (p : pattern).         (* (p), the capture group 1 *)

(** A regular-expression literal [/source/flags]. *)
Record t : Type := literal { source : string; flags : string; ast : pattern }.

(** [RegExp.prototype.toString]: what a regular expression becomes where a
    string is expected. *)
Definition toString (r : t) : string := "/" ++ source r ++ "/" ++ flags r.

(** The matcher's state: the index reached, the input from there on and
    what the capture group 1 holds ([None] is [undefined]). *)
Record state : Type := mkState { index : nat; rest : string; cap1 : option string }.

Definition step (st : state) (ok : ascii -> bool) (k : state -> option state)
  : option state :=
  match rest st with
  | EmptyString => None
  | String c s' =>
      if ok c then k (mkState (S (index st)) s' (cap1 st)) else None
  end.

Fixpoint run (p : pattern) (st : state) (k : state -> option state)
  : option state :=
  match p with
  | Bol => if (index st =? 0)%nat then k st else None
  | Chr c => step st (fun x => Ascii.eqb x c) k
  | NotChr c => step st (fun x => negb (Ascii.eqb x c)) k
  | OneOf cs => step st (fun x => existsb (Ascii.eqb x) cs) k
  | Space => step st JsString.is_space k
  | Seq p q => run p st (fun st' => run q st' k)
  | Alt p q =>
      match run p st k with
      | Some r => Some r
      | None => run q st k
      end
  | Group p =>
      run p st (fun st' =>
        k (mkState (index st') (rest st')
             (Some (String.substring 0 (index st' - index st) (rest st)))))
  end.

(** The result of [exec]: where the match starts, what the capture group
    holds and the input that follows the match. *)
Record found : Type := mkFound { start : nat; group1 : option string; after : string }.

Fixpoint exec_from (p : pattern) (i : nat) (s : string) : option found :=
  match run p (mkState i s None) Some with
  | Some st => Some (mkFound i (cap1 st) (rest st))
  | None =>
      match s with
      | EmptyString => None
      | String _ s' => exec_from p (S i) s'
      end
  end.

Definition exec (r : t) (s : string) : option found := exec_from (ast r) 0 s.

(** A replacement string, split into its literal parts and its references
    to the capture group: ['$1plus'] is [[Cap1; Lit "plus"]]. *)
Inductive piece : Type := Cap1 | Lit (s : string).

Fixpoint expand (tpl : list piece) (g : option string) : string :=
  match tpl with
  | [] => EmptyString
  | Cap1 :: tpl' =>
      match g with Some x => x | None => EmptyString end ++ expand tpl' g
  | Lit s :: tpl' => s ++ expand tpl' g
  end.

(** [s.replace(r, tpl)] for a regular expression without the [g] flag:
    the first match only is replaced. *)
Definition replace (r : t) (tpl : list piece) (s : string) : string :=
  match exec r s with
  | None => s
  | Some m => String.substring 0 (start m) s ++ expand tpl (group1 m) ++ after m
  end.

End RegExp.

(** The three regular-expression literals of [parseCombination]. *)

Definition re_shift : RegExp.t :=
  RegExp.literal "[sS]hift" ""
    (RegExp.Seq (RegExp.OneOf ["s"; "S"]%char)
       (RegExp.Seq (RegExp.Chr "h") (RegExp.Seq (RegExp.Chr "i")
          (RegExp.Seq (RegExp.Chr "f") (RegExp.Chr "t"))))).

Definition re_alt : RegExp.t :=
  RegExp.literal "[aA]lt" ""
    (RegExp.Seq (RegExp.OneOf ["a"; "A"]%char)
       (RegExp.Seq (RegExp.Chr "l") (RegExp.Chr "t"))).

Definition re_plus : RegExp.t :=
  RegExp.literal "^\+|(\s|[^+]\+)\+" ""
    (RegExp.Alt
       (RegExp.Seq RegExp.Bol (RegExp.Chr "+"))
       (RegExp.Seq
          (RegExp.Group
             (RegExp.Alt RegExp.Space
                (RegExp.Seq (RegExp.NotChr "+") (RegExp.Chr "+"))))
          (RegExp.Chr "+"))).

Definition plus_template : list RegExp.piece := [RegExp.Cap1; RegExp.Lit "plus"].

(** The tokens of a combination string:
    [string.replace(/^\+|(\s|[^+]\+)\+/, '$1plus').split('+')]. *)
Definition escapePlus (s : string) : string :=
  RegExp.replace re_plus plus_template s.

Definition tokens (s : string) : list string :=
  JsString.split "+" (escapePlus s).

(** ** Objects used as dictionaries

    A [KeyDictionary] is a plain object, created by [{}], whose own
    properties are the key names.  It is kept as the list of its own
    properties in creation order; what [Object.keys] returns is computed from
    this list.  The prototype of such an object is [Object.prototype], whose
    one accessor property is [__proto__]. *)

Module JsObject.

Definition t : Type := list (string * bool).

(** The object literal [{}]. *)
Definition empty : t := [].

(** Creating or updating an own property: an existing property keeps its
    place and takes the new value, a new one is created after the
    others. *)
Fixpoint define (o : t) (k : string) (v : bool) : t :=
  match o with
  | [] => [(k, v)]
  | (k', v') :: o' =>
      if String.eqb k' k then (k', v) :: o' else (k', v') :: define o' k v
  end.

(** [o[k] = v] for a boolean [v].  For [__proto__] the assignment runs the
    setter inherited from [Object.prototype], which ignores a value that is
    neither an object nor null: the object is left as it is.  Every other
    name becomes, or stays, an own property. *)
Definition set (o : t) (k : string) (v : bool) : t :=
  if String.eqb k "__proto__" then o else define o k v.

(** The value of the own property [k], if there is one. *)
Fixpoint get (o : t) (k : string) : option bool :=
  match o with
  | [] => None
  | (k', v') :: o' => if String.eqb k' k then Some v' else get o' k
  end.

(** The own property names, in creation order. *)
Definition ownKeys (o : t) : list string := map fst o.

(** An array index is the canonical decimal form of an integer from 0 to
    2^32 - 2: digits only, no leading zero. *)
Definition digit_value (c : ascii) : option N :=
  let n := N_of_ascii c in
  if (48 <=? n)%N && (n <=? 57)%N then Some (n - 48)%N else None.

Fixpoint decimal_value (acc : N) (s : string) : option N :=
  match s with
  | EmptyString => Some acc
  | String c s' =>
      match digit_value c with
      | Some d => decimal_value (10 * acc + d)%N s'
      | None => None
      end
  end.

Definition array_index (k : string) : option N :=
  match k with
  | EmptyString => None
  | String c rest =>
      if Ascii.eqb c "0" && negb (String.eqb rest "") then None
      else
        match decimal_value 0 k with
        | Some n => if (n <=? 4294967294)%N then Some n else None
        | None => None
        end
  end.

Definition is_array_index (k : string) : bool :=
  match array_index k with Some _ => true | None => false end.

Fixpoint insert_index (n : N) (k : string) (l : list (N * string))
  : list (N * string) :=
  match l with
  | [] => [(n, k)]
  | (m, k') :: l' =>
      if (n <=? m)%N then (n, k) :: l else (m, k') :: insert_index n k l'
  end.

Definition index_keys (names : list string) : list (N * string) :=
  fold_right (fun k acc =>
                match array_index k with
                | Some n => insert_index n k acc
                | None => acc
                end) [] names.

(** The order in which the own property names are enumerated: the array
    indices in ascending numeric order, then the other names in creation
    order. *)
Definition enumerate (names : list string) : list string :=
  (map snd (index_keys names)
   ++ filter (fun k => negb (is_array_index k)) names)%list.

(** [Object.keys(o)]. *)
Definition keys (o : t) : list string := enumerate (ownKeys o).

(** [Object.keys(o).length]. *)
Definition keys_length (o : t) : nat := List.length (keys o).

End JsObject.

Definition KeyDictionary : Type := JsObject.t.

(** The object literal [{ shift: ..., alt: ... }] handed to the key-name
    standardizer. *)
Record ModifierContext : Type := { shift : bool; alt : bool }.

(** ** Exceptions and calls to imported helpers *)

Inductive exn : Type :=
| InvalidKeyNameError
| TypeError
| Thrown (what : string).

Inductive call : Type :=
| CallStandardizeKeyName (keyName : string) (ctx : ModifierContext)
| CallIsValidKey (keyName : string)
| CallNormalizedCombinationId (keyDictionary : KeyDictionary).

(** A computation returns the calls it made, in order, and either the
    exception it threw or its value. *)
Definition M (A : Type) : Type := (list call * (exn + A))%type.

Definition ret {A} (a : A) : M A := ([], inr a).

Definition throw {A} (e : exn) : M A := ([], inl e).

Definition bind {A B} (m : M A) (f : A -> M B) : M B :=
  match m with
  | (tr, inl e) => (tr, inl e)
  | (tr, inr a) => let (tr', r) := f a in ((tr ++ tr')%list, r)
  end.

Notation "x <- m ;; k" := (bind m (fun x => k))
  (at level 61, m at next level, right associativity).

Definition trace {A} (m : M A) : list call := fst m.
Definition outcome {A} (m : M A) : exn + A := snd m.

(** [arr.reduce(f, init)] and [arr.map(f)] with a callback that may throw. *)
Fixpoint reduce {A B} (f : B -> A -> M B) (arr : list A) (acc : B) : M B :=
  match arr with
  | [] => ret acc
  | x :: arr' => acc' <- f acc x ;; reduce f arr' acc'
  end.

Fixpoint mapM {A B} (f : A -> M B) (arr : list A) : M (list B) :=
  match arr with
  | [] => ret []
  | x :: arr' => y <- f x ;; ys <- mapM f arr' ;; ret (y :: ys)
  end.

(** ** The records of the source's type definitions *)

Module Options.
Record t (E : Type) : Type := make { keyEventType : E; ensureValidKeys : bool }.
Arguments make {E}.
Arguments keyEventType {E}.
Arguments ensureValidKeys {E}.
End Options.

Module BasicKeyCombination.
Record t (E : Type) : Type := make {
  id : string;
  keyDictionary : KeyDictionary;
  keyEventType : E;
  size : nat
}.
Arguments make {E}.
Arguments id {E}.
Arguments keyDictionary {E}.
Arguments keyEventType {E}.
Arguments size {E}.
End BasicKeyCombination.

Module BasicKeySequence.
Record t : Type := make { prefix : string; size : nat }.
End BasicKeySequence.

(** [KeySequenceOptions]: [None] is [null]. *)
Record KeySequenceOptions (E : Type) : Type := {
  sequence : option BasicKeySequence.t;
  combination : option (BasicKeyCombination.t E)
}.
Arguments Build_KeySequenceOptions {E}.
Arguments sequence {E}.
Arguments combination {E}.

(** ** The parser *)

Section KeySequenceParser.

(** The type of [options.keyEventType]. *)
Variable EventType : Type.

(** The four imported helpers.  Those called inside the [try] block may
    throw. *)
Variable stripSuperfluousWhitespace : string -> string.
Variable standardizeKeyName : string -> ModifierContext -> exn + string.
Variable isValidKey : string -> exn + bool.
Variable normalizedCombinationId : KeyDictionary -> exn + string.

Definition call_standardizeKeyName (keyName : string) (ctx : ModifierContext)
  : M string :=
  ([CallStandardizeKeyName keyName ctx], standardizeKeyName keyName ctx).

Definition call_isValidKey (keyName : string) : M bool :=
  ([CallIsValidKey keyName], isValidKey keyName).

Definition call_normalizedCombinationId (d : KeyDictionary) : M string :=
  ([CallNormalizedCombinationId d], normalizedCombinationId d).

(** The modifier context of lines 140-141: [indexOf] receives a regular
    expression and searches for its string form. *)
Definition shiftPressed (str : string) : bool :=
  negb (JsString.indexOf str (RegExp.toString re_shift) =? -1)%Z.

Definition altPressed (str : string) : bool :=
  negb (JsString.indexOf str (RegExp.toString re_alt) =? -1)%Z.

Definition modifierContext (str : string) : ModifierContext :=
  {| shift := shiftPressed str; alt := altPressed str |}.

(** The callback of [reduce] in [parseCombination]. *)
Definition addKey (options : Options.t EventType) (ctx : ModifierContext)
    (keyDictionary : KeyDictionary) (keyName : string) : M KeyDictionary :=
  finalKeyName <- call_standardizeKeyName keyName ctx ;;
  _ <- (if Options.ensureValidKeys options then
          valid <- call_isValidKey finalKeyName ;;
          if negb valid then throw InvalidKeyNameError else ret tt
        else ret tt) ;;
  ret (JsObject.set keyDictionary finalKeyName true).

Definition parseCombination (str : string) (options : Options.t EventType)
  : M KeyDictionary :=
  reduce (addKey options (modifierContext str)) (tokens str) JsObject.empty.

(** Lines 83-85: the combination substrings of a sequence string. *)
Definition keyCombinationsArray (sequenceString : string) : list string :=
  let trimmedSequenceString := stripSuperfluousWhitespace sequenceString in
  JsString.split " " trimmedSequenceString.

(** [keyCombinationsArray.slice(0, keyCombinationsArray.length-1)]. *)
Definition nonTerminalCombinations (keyCombinationsArray : list string)
  : list string :=
  firstn (List.length keyCombinationsArray - 1) keyCombinationsArray.

(** [keyCombinationsArray[keyCombinationsArray.length-1]]; [None] is
    [undefined]. *)
Definition terminalCombination (keyCombinationsArray : list string)
  : option string :=
  nth_error keyCombinationsArray (List.length keyCombinationsArray - 1).

(** The callback of [map] in [parse]. *)
Definition combinationId (options : Options.t EventType)
    (keyCombination : string) : M string :=
  keysInComboDict <- parseCombination keyCombination options ;;
  call_normalizedCombinationId keysInComboDict.

(** The body of the [try] block of [parse]. *)
Definition parse_try (sequenceString : string) (options : Options.t EventType)
  : M (KeySequenceOptions EventType) :=
  let keyCombinationsArray := keyCombinationsArray sequenceString in
  ids <- mapM (combinationId options)
           (nonTerminalCombinations keyCombinationsArray) ;;
  let prefix := JsString.join " " ids in
  keysInComboDict <-
    match terminalCombination keyCombinationsArray with
    | Some str => parseCombination str options
    | None => throw TypeError
    end ;;
  normalizedComboString <- call_normalizedCombinationId keysInComboDict ;;
  let combination :=
    BasicKeyCombination.make normalizedComboString keysInComboDict
      (Options.keyEventType options) (JsObject.keys_length keysInComboDict) in
  ret {| sequence :=
           Some (BasicKeySequence.make prefix
                   (List.length (nonTerminalCombinations keyCombinationsArray) + 1));
         combination := Some combination |}.

Definition failure : KeySequenceOptions EventType :=
  {| sequence := None; combination := None |}.

(** [parse]: whatever the [try] block throws, the [catch] clause returns
    the two nulls. *)
Definition parse (sequenceString : string) (options : Options.t EventType)
  : KeySequenceOptions EventType :=
  match outcome (parse_try sequenceString options) with
  | inr result => result
  | inl _ => failure
  end.

(** The calls [parse] makes to the imported helpers of the [try] block. *)
Definition parse_calls (sequenceString : string) (options : Options.t EventType)
  : list call :=
  trace (parse_try sequenceString options).

End KeySequenceParser.

Arguments parse {EventType}.
Arguments parse_try {EventType}.
Arguments parse_calls {EventType}.
Arguments parseCombination {EventType}.
Arguments addKey {EventType}.
Arguments combinationId {EventType}.
Arguments failure {EventType}.

(** ** The imported helpers

    The four helpers live in files of the repository that this development
    does not embed.  The definitions below follow their description and
    serve to run the parser on concrete inputs. *)

Module Helpers.

Fixpoint collapse (pending started : bool) (s : string) : string :=
  match s with
  | EmptyString => EmptyString
  | String c s' =>
      if JsString.is_space c then collapse started started s'
      else
        let out := String c (collapse false true s') in
        if pending then String " " out else out
  end.

(** Modelled from the spec: [utils/string/stripSuperfluousWhitespace], which
    "collapses/trims runs of whitespace in the input string". *)
Definition stripSuperfluousWhitespace (s : string) : string :=
  collapse false false s.

(** Modelled from the spec: [helpers/parsing-key-maps/standardizeKeyName],
    which "given a raw token and modifier context (shift/alt active),
    returns the canonical name for that key (e.g. esc -> Escape)".  A
    few aliases stand for the lookup table; any other token is its own
    canonical name. *)
Definition standardizeKeyName (keyName : string) (ctx : ModifierContext)
  : string :=
  let k := JsString.toLowerCase keyName in
  if String.eqb k "esc" then "Escape"
  else if String.eqb k "plus" then "+"
  else if String.eqb k "ctrl" then "Control"
  else if String.eqb k "shift" then "Shift"
  else if String.eqb k "alt" then "Alt"
  else keyName.

(** Modelled from the spec: [helpers/parsing-key-maps/isValidKey], which
    "given a canonical key name, returns whether it is a recognized key".
    The recognized keys are those of one character and a few named
    ones. *)
Definition isValidKey (keyName : string) : bool :=
  (String.length keyName =? 1)%nat
  || existsb (String.eqb keyName) ["Escape"; "Control"; "Shift"; "Alt"; "Enter"].

Fixpoint insert_sorted (k : string) (l : list string) : list string :=
  match l with
  | [] => [k]
  | x :: l' => if String.leb k x then k :: l else x :: insert_sorted k l'
  end.

Definition sort_keys (l : list string) : list string :=
  fold_right insert_sorted [] l.

(** Modelled from the spec: [helpers/parsing-key-maps/normalizedCombinationId],
    which "given a set of key names, returns the canonical string
    identifier for that set (order-independent)"; the source documents
    the identifier as the keys "sorted in alphabetical order", joined
    here with [+]. *)
Definition normalizedCombinationId (d : KeyDictionary) : string :=
  JsString.join "+" (sort_keys (JsObject.ownKeys d)).

(** The helpers as the parser takes them: these ones never throw. *)
Definition std : string -> ModifierContext -> exn + string :=
  fun k ctx => inr (standardizeKeyName k ctx).
Definition valid : string -> exn + bool := fun k => inr (isValidKey k).
Definition norm : KeyDictionary -> exn + string :=
  fun d => inr (normalizedCombinationId d).

(** A standardizer that throws on the token [b], as any helper called in
    the [try] block may. *)
Definition std_throwing : string -> ModifierContext -> exn + string :=
  fun k ctx =>
    if String.eqb k "b" then inl (Thrown "standardizeKeyName")
    else inr (standardizeKeyName k ctx).

(** The parser linked with these helpers. *)
Definition run {E} (s : string) (o : Options.t E) : KeySequenceOptions E :=
  parse stripSuperfluousWhitespace std valid norm s o.

End Helpers.

(** ** Notions used to state the properties *)

(** [pat] occurs in [s] as a substring. *)
Definition contains (s pat : string) : Prop :=
  exists pre post, s = pre ++ pat ++ post.

(** [pat] occurs in [s] when the case of the letters is ignored. *)
Definition contains_ignoring_case (s pat : string) : Prop :=
  contains (JsString.toLowerCase s) (JsString.toLowerCase pat).

(** The places where the pattern [/^\+|(\s|[^+]\+)\+/] matches.  With [n]
    the index where the match starts and [g] what precedes the rewritten
    [+] within the match: the [+] is the first character of the string, or
    it follows a white space, or it follows a [+] that follows a character
    other than [+]. *)
Inductive qualifies_at : nat -> string -> Prop :=
| q_leading : qualifies_at 0 ""
| q_space n c : JsString.is_space c = true -> qualifies_at n (String c "")
| q_doubled n c :
    c <> "+"%char -> JsString.is_space c = false ->
    qualifies_at n (String c "+").

(** The same places, computed: [match_here n s] is what precedes the [+]
    within a match starting at the head of [s] (itself at index [n]) and
    what follows the match. *)
Definition match_here (n : nat) (s : string) : option (string * string) :=
  match s with
  | EmptyString => None
  | String c s1 =>
      if (n =? 0)%nat && Ascii.eqb c "+" then Some ("", s1)
      else if JsString.is_space c then
        match s1 with
        | String c1 s2 => if Ascii.eqb c1 "+" then Some (String c "", s2) else None
        | EmptyString => None
        end
      else if Ascii.eqb c "+" then None
      else
        match s1 with
        | String c1 (String c2 s3) =>
            if Ascii.eqb c1 "+" && Ascii.eqb c2 "+" then Some (String c "+", s3)
            else None
        | _ => None
        end
  end.

Fixpoint count_char (c : ascii) (s : string) : nat :=
  match s with
  | EmptyString => 0
  | String c' s' => (if Ascii.eqb c' c then 1 else 0) + count_char c s'
  end.

Fixpoint last_char (s : string) : option ascii :=
  match s with
  | EmptyString => None
  | String c EmptyString => Some c
  | String _ s' => last_char s'
  end.

(** A string is well separated by [+] when it is not empty, neither starts
    nor ends with [+] and has no two [+] in a row. *)
Definition well_separated (s : string) : Prop :=
  s <> "" /\ JsString.startsWith s "+" = false /\ last_char s <> Some "+"%char
  /\ ~ contains s "++".

(** A string without white space at either end. *)
Definition trimmed (s : string) : Prop :=
  (forall c s', s = String c s' -> JsString.is_space c = false)
  /\ (forall c, last_char s = Some c -> JsString.is_space c = false).

(** A helper that never throws. *)
Definition total {A B} (f : A -> exn + B) : Prop :=
  forall a, exists b, f a = inr b.

(** What a token needs for the callback of [reduce] to go through: the
    standardizer returns a name and, when validation is requested, the
    validity check returns true for it. *)
Definition accepted {E} (standardizeKeyName : string -> ModifierContext -> exn + string)
    (isValidKey : string -> exn + bool) (options : Options.t E)
    (ctx : ModifierContext) (keyName : string) : Prop :=
  exists name, standardizeKeyName keyName ctx = inr name
    /\ (Options.ensureValidKeys options = true -> isValidKey name = inr true).

(** The event type tag changed by a function, in the options and in the
    result. *)
Definition map_options {E E'} (f : E -> E') (o : Options.t E) : Options.t E' :=
  Options.make (f (Options.keyEventType o)) (Options.ensureValidKeys o).

Definition map_combination {E E'} (f : E -> E') (c : BasicKeyCombination.t E)
  : BasicKeyCombination.t E' :=
  BasicKeyCombination.make (BasicKeyCombination.id c)
    (BasicKeyCombination.keyDictionary c)
    (f (BasicKeyCombination.keyEventType c)) (BasicKeyCombination.size c).

Definition map_result {E E'} (f : E -> E') (r : KeySequenceOptions E)
  : KeySequenceOptions E' :=
  {| sequence := sequence r;
     combination := option_map (map_combination f) (combination r) |}.

(** A dictionary as [parseCombination] builds them: no key name twice and
    every presence flag true. *)
Definition key_dictionary (d : KeyDictionary) : Prop :=
  NoDup (JsObject.ownKeys d) /\ forall k v, In (k, v) d -> v = true.

(** Two dictionaries with the same key names. *)
Definition same_keys (d1 d2 : KeyDictionary) : Prop :=
  forall k, In k (JsObject.ownKeys d1) <-> In k (JsObject.ownKeys d2).

(** Modelled from the spec: [normalizedCombinationId] is not part of the
    embedded source; it "returns the canonical string identifier for that
    set (order-independent)", that is, its result depends on the set of key
    names of the dictionary only. *)
Definition order_independent (normalizedCombinationId : KeyDictionary -> exn + string)
  : Prop :=
  forall d1 d2,
    key_dictionary d1 -> key_dictionary d2 -> same_keys d1 d2 ->
    normalizedCombinationId d1 = normalizedCombinationId d2.

(** The calls of a trace, by helper: the tokens handed to the standardizer,
    the names handed to the validity check and the dictionaries handed to
    the normalizer, each in call order. *)
Fixpoint standardized (tr : list call) : list string :=
  match tr with
  | [] => []
  | CallStandardizeKeyName keyName _ :: tr' => keyName :: standardized tr'
  | _ :: tr' => standardized tr'
  end.

Fixpoint validated (tr : list call) : list string :=
  match tr with
  | [] => []
  | CallIsValidKey keyName :: tr' => keyName :: validated tr'
  | _ :: tr' => validated tr'
  end.

Fixpoint normalized (tr : list call) : list KeyDictionary :=
  match tr with
  | [] => []
  | CallNormalizedCombinationId d :: tr' => d :: normalized tr'
  | _ :: tr' => normalized tr'
  end.

(** The names of a list in the order of their first occurrence. *)
Definition add_name (seen : list string) (name : string) : list string :=
  if existsb (String.eqb name) seen then seen else (seen ++ [name])%list.

Definition first_occurrences (names : list string) : list string :=
  fold_left add_name names [].

(** The names for which an assignment creates a property: all but
    [__proto__]. *)
Definition recorded (names : list string) : list string :=
  filter (fun name => negb (String.eqb name "__proto__")) names.

(** ** Strings *)

Lemma append_nil_r (s : string) : s ++ "" = s.
Proof. induction s; simpl; congruence. Qed.

Lemma append_assoc (a b c : string) : (a ++ b) ++ c = a ++ b ++ c.
Proof. induction a; simpl; congruence. Qed.

Lemma length_append (a b : string) :
  String.length (a ++ b) = String.length a + String.length b.
Proof. induction a; simpl; congruence. Qed.

Lemma substring_prefix (a b : string) :
  String.substring 0 (String.length a) (a ++ b) = a.
Proof.
  induction a as [|c a IH]; simpl.
  - destruct b; reflexivity.
  - now rewrite IH.
Qed.

Lemma is_space_plus : JsString.is_space "+" = false.
Proof. reflexivity. Qed.

(** ** The escape rewrite *)

Lemma match_here_sound n s g post :
  match_here n s = Some (g, post) ->
  s = g ++ "+" ++ post /\ qualifies_at n g.
Proof.
  unfold match_here. destruct s as [|c s1]; [discriminate|].
  destruct (Nat.eqb_spec n 0) as [Hn|Hn]; simpl;
    destruct (Ascii.eqb_spec c "+") as [Hc|Hc].
  - intros [= <- <-]. subst. split; [reflexivity|constructor].
  - destruct (JsString.is_space c) eqn:Hs.
    + destruct s1 as [|c1 s2]; [discriminate|].
      destruct (Ascii.eqb_spec c1 "+"); [|discriminate].
      intros [= <- <-]. subst. split; [reflexivity|now constructor].
    + destruct s1 as [|c1 [|c2 s3]]; try discriminate.
      destruct (Ascii.eqb_spec c1 "+"); [|discriminate].
      destruct (Ascii.eqb_spec c2 "+"); [|discriminate].
      intros [= <- <-]. subst. split; [reflexivity|now constructor].
  - subst c. rewrite is_space_plus. discriminate.
  - destruct (JsString.is_space c) eqn:Hs.
    + destruct s1 as [|c1 s2]; [discriminate|].
      destruct (Ascii.eqb_spec c1 "+"); [|discriminate].
      intros [= <- <-]. subst. split; [reflexivity|now constructor].
    + destruct s1 as [|c1 [|c2 s3]]; try discriminate.
      destruct (Ascii.eqb_spec c1 "+"); [|discriminate].
      destruct (Ascii.eqb_spec c2 "+"); [|discriminate].
      intros [= <- <-]. subst. split; [reflexivity|now constructor].
Qed.

Lemma match_here_complete n g post :
  qualifies_at n g -> match_here n (g ++ "+" ++ post) = Some (g, post).
Proof.
  intros H. destruct H as [|n c Hs|n c Hc Hs]; simpl.
  - reflexivity.
  - assert (Hp : Ascii.eqb c "+" = false).
    { apply Ascii.eqb_neq. intros ->. now rewrite is_space_plus in Hs. }
    rewrite Hp, Bool.andb_false_r, Hs. reflexivity.
  - apply Ascii.eqb_neq in Hc. rewrite Hc, Bool.andb_false_r, Hs.
    reflexivity.
Qed.

Lemma run_re_plus n s :
  RegExp.run (RegExp.ast re_plus) (RegExp.mkState n s None) Some =
  match match_here n s with
  | None => None
  | Some (g, post) =>
      Some (RegExp.mkState (n + String.length g + 1) post
              (if String.eqb g "" then None else Some g))
  end.
Proof.
  assert (E1 : S n - n = 1) by lia.
  assert (E2 : S (S n) - n = 2) by lia.
  assert (E3 : n + 0 + 1 = S n) by lia.
  assert (E4 : n + 1 + 1 = S (S n)) by lia.
  assert (E5 : n + 2 + 1 = S (S (S n))) by lia.
  unfold match_here, re_plus, RegExp.ast.
  destruct s as [|c s1].
  - unfold RegExp.run, RegExp.step; cbn [RegExp.rest RegExp.index].
    destruct (n =? 0)%nat; reflexivity.
  - unfold RegExp.run, RegExp.step;
      cbn [RegExp.rest RegExp.index RegExp.cap1 negb].
    rewrite ?E1, ?E2.
    destruct (Nat.eqb_spec n 0) as [Hn|Hn];
      destruct (Ascii.eqb_spec c "+") as [Hc|Hc];
      cbn [andb negb String.length String.eqb].
    + now rewrite E3.
    + destruct (JsString.is_space c);
        destruct s1 as [|c1 [|c2 s3]]; cbn; try reflexivity;
        destruct (Ascii.eqb_spec c1 "+"); cbn; try reflexivity;
        try destruct (Ascii.eqb_spec c2 "+"); cbn; subst;
        rewrite ?E4, ?E5; reflexivity.
    + subst c. rewrite is_space_plus. reflexivity.
    + destruct (JsString.is_space c);
        destruct s1 as [|c1 [|c2 s3]]; cbn; try reflexivity;
        destruct (Ascii.eqb_spec c1 "+"); cbn; try reflexivity;
        try destruct (Ascii.eqb_spec c2 "+"); cbn; subst;
        rewrite ?E4, ?E5; reflexivity.
Qed.

Lemma no_match_in_empty pre g post : "" <> pre ++ g ++ "+" ++ post.
Proof.
  intros H. apply (f_equal String.length) in H.
  rewrite !length_append in H. simpl in H. lia.
Qed.

Lemma exec_from_re_plus s : forall n,
  match RegExp.exec_from (RegExp.ast re_plus) n s with
  | Some m =>
      exists pre g post,
        s = pre ++ g ++ "+" ++ post
        /\ qualifies_at (n + String.length pre) g
        /\ RegExp.start m = n + String.length pre
        /\ RegExp.expand plus_template (RegExp.group1 m) = g ++ "plus"
        /\ RegExp.after m = post
        /\ (forall pre' g' post',
              s = pre' ++ g' ++ "+" ++ post' ->
              qualifies_at (n + String.length pre') g' ->
              String.length pre <= String.length pre')
  | None =>
      forall pre g post,
        s = pre ++ g ++ "+" ++ post -> ~ qualifies_at (n + String.length pre) g
  end.
Proof.
  induction s as [|c s IH]; intros n; cbn [RegExp.exec_from];
    rewrite run_re_plus.
  - cbn. intros pre g post H. now apply no_match_in_empty in H.
  - destruct (match_here n (String c s)) as [[g post]|] eqn:Hm.
    + cbn [RegExp.cap1 RegExp.rest].
      apply match_here_sound in Hm as [Hs Hq].
      exists "", g, post. cbn [String.length append RegExp.start
        RegExp.group1 RegExp.after].
      rewrite Nat.add_0_r. repeat split; auto; try lia.
      destruct g; reflexivity.
    + assert (Hhead : forall g' post',
                 String c s = g' ++ "+" ++ post' -> ~ qualifies_at n g').
      { intros g' post' E Hq.
        rewrite E, (match_here_complete _ _ _ Hq) in Hm. discriminate. }
      specialize (IH (S n)).
      destruct (RegExp.exec_from (RegExp.ast re_plus) (S n) s) as [m|].
      * destruct IH as (pre & g & post & Hs & Hq & Hst & Hex & Haf & Hleft).
        exists (String c pre), g, post.
        cbn [String.length append].
        rewrite Nat.add_succ_r. repeat split; auto.
        -- now rewrite Hs.
        -- intros [|c' pre'] g' post' E Hq'.
           ++ cbn in E, Hq'. rewrite Nat.add_0_r in Hq'.
              now apply Hhead in E.
           ++ cbn in E. injection E as -> E.
              cbn [String.length] in *. rewrite Nat.add_succ_r in Hq'.
              apply le_n_S. apply (Hleft pre' g' post'); [exact E|exact Hq'].
      * intros [|c' pre] g post E Hq.
        -- cbn in E, Hq. rewrite Nat.add_0_r in Hq. now apply Hhead in E.
        -- cbn in E. injection E as -> E.
           cbn [String.length] in Hq. rewrite Nat.add_succ_r in Hq.
           apply (IH pre g post); [exact E|exact Hq].
Qed.

Lemma escapePlus_spec s :
  (escapePlus s = s
   /\ forall pre g post,
        s = pre ++ g ++ "+" ++ post -> ~ qualifies_at (String.length pre) g)
  \/ (exists pre g post,
        s = pre ++ g ++ "+" ++ post
        /\ qualifies_at (String.length pre) g
        /\ escapePlus s = pre ++ g ++ "plus" ++ post
        /\ forall pre' g' post',
             s = pre' ++ g' ++ "+" ++ post' ->
             qualifies_at (String.length pre') g' ->
             String.length pre <= String.length pre').
Proof.
  unfold escapePlus, RegExp.replace, RegExp.exec.
  pose proof (exec_from_re_plus s 0) as H.
  destruct (RegExp.exec_from (RegExp.ast re_plus) 0 s) as [m|].
  - right. destruct H as (pre & g & post & Hs & Hq & Hst & Hex & Haf & Hleft).
    exists pre, g, post. cbn in Hq, Hst. repeat split; auto.
    rewrite Hst, Hex, Haf. rewrite Hs at 1.
    now rewrite substring_prefix, append_assoc.
  - left. split; [reflexivity|]. intros pre g post E. exact (H pre g post E).
Qed.

(** ** Substring search *)

Lemma startsWith_iff s pat :
  JsString.startsWith s pat = true <-> exists post, s = pat ++ post.
Proof.
  revert s. induction pat as [|p pat IH]; intros s; cbn.
  - split; [intros _; now exists s|reflexivity].
  - destruct s as [|c s].
    + split; [discriminate|intros [post H]; discriminate].
    + rewrite Bool.andb_true_iff, IH. split.
      * intros [Hc [post ->]]. apply Ascii.eqb_eq in Hc. subst. now exists post.
      * intros [post [= -> ->]]. split; [apply Ascii.eqb_refl|now exists post].
Qed.

Lemma contains_nil pat : contains "" pat <-> pat = "".
Proof.
  split.
  - intros (pre & post & H). destruct pre; [|discriminate].
    destruct pat; [reflexivity|discriminate].
  - intros ->. now exists "", "".
Qed.

Lemma contains_cons c s pat :
  contains (String c s) pat <->
  JsString.startsWith (String c s) pat = true \/ contains s pat.
Proof.
  rewrite startsWith_iff. split.
  - intros ([|c' pre] & post & H).
    + left. now exists post.
    + right. injection H as -> H. now exists pre, post.
  - intros [[post H]|(pre & post & H)].
    + now exists "", post.
    + exists (String c pre), post. cbn. now rewrite H.
Qed.

Lemma indexOf_from_nonneg i s pat :
  (0 <= i)%Z -> JsString.indexOf_from i s pat <> (-1)%Z <-> contains s pat.
Proof.
  revert i. induction s as [|c s IH]; intros i Hi; cbn [JsString.indexOf_from].
  - rewrite contains_nil.
    destruct pat; cbn; split; try lia; try discriminate; auto.
  - rewrite contains_cons.
    destruct (JsString.startsWith (String c s) pat) eqn:Hp.
    + split; [auto|lia].
    + rewrite IH by lia. split; [auto|intros [H|H]; [discriminate|exact H]].
Qed.

Lemma indexOf_found_iff s pat :
  negb (JsString.indexOf s pat =? -1)%Z = true <-> contains s pat.
Proof.
  unfold JsString.indexOf.
  rewrite <- (indexOf_from_nonneg 0 s pat) by lia.
  rewrite Bool.negb_true_iff, Z.eqb_neq. reflexivity.
Qed.

(** ** Splitting *)

Lemma split_not_nil sep s : JsString.split sep s <> [].
Proof.
  destruct s as [|c s]; cbn; [discriminate|].
  destruct (Ascii.eqb c sep); [discriminate|].
  destruct (JsString.split sep s); discriminate.
Qed.

Lemma length_split sep s :
  List.length (JsString.split sep s) = count_char sep s + 1.
Proof.
  induction s as [|c s IH]; cbn; [reflexivity|].
  destruct (Ascii.eqb c sep); cbn; [now rewrite IH|].
  destruct (JsString.split sep s) eqn:E; [now apply split_not_nil in E|].
  exact IH.
Qed.

Lemma join_split sep s :
  JsString.join (String sep "") (JsString.split sep s) = s.
Proof.
  unfold JsString.join. induction s as [|c s IH]; cbn; [reflexivity|].
  destruct (Ascii.eqb_spec c sep) as [->|Hc].
  - destruct (JsString.split sep s) as [|t ts] eqn:E;
      [now apply split_not_nil in E|].
    cbn [String.concat append] in *. now rewrite IH.
  - destruct (JsString.split sep s) as [|t ts] eqn:E;
      [now apply split_not_nil in E|].
    cbn [String.concat append] in *. destruct ts; cbn in *; now rewrite <- IH.
Qed.

Lemma split_pieces_free sep s :
  Forall (fun t => count_char sep t = 0) (JsString.split sep s).
Proof.
  induction s as [|c s IH]; cbn; [now constructor|].
  destruct (Ascii.eqb c sep) eqn:Hc; [now constructor|].
  destruct (JsString.split sep s) as [|t ts] eqn:E;
    [now apply split_not_nil in E|].
  inversion IH; subst. constructor; [cbn; now rewrite Hc|assumption].
Qed.

Lemma split_head_empty sep s t ts :
  JsString.split sep s = t :: ts ->
  (t = "" <-> s = "" \/ exists s', s = String sep s').
Proof.
  destruct s as [|c s]; cbn.
  - intros [= <- <-]. split; auto.
  - destruct (Ascii.eqb_spec c sep) as [->|Hc].
    + intros [= <- _]. split; eauto.
    + destruct (JsString.split sep s); intros [= <- _];
        (split; [discriminate|intros [H|[s' [= H _]]]; congruence]).
Qed.

Lemma split_no_separator sep s :
  count_char sep s = 0 -> JsString.split sep s = [s].
Proof.
  induction s as [|c s IH]; cbn; [reflexivity|].
  destruct (Ascii.eqb c sep); [discriminate|].
  cbn. intros H. now rewrite IH.
Qed.

Lemma count_char_contains c s :
  count_char c s = 0 <-> ~ contains s (String c "").
Proof.
  induction s as [|c' s IH]; cbn [count_char].
  - rewrite contains_nil. split; [discriminate|reflexivity].
  - rewrite contains_cons. cbn [JsString.startsWith].
    rewrite Bool.andb_true_r.
    destruct (Ascii.eqb c' c); cbn.
    + split; [discriminate|intros H; exfalso; apply H; now left].
    + rewrite IH. split; [intros H [?|?]; [discriminate|auto]|auto].
Qed.

Lemma last_char_cons c s :
  last_char (String c s) = match s with "" => Some c | _ => last_char s end.
Proof. destruct s; reflexivity. Qed.

Lemma split_tail_nonempty r :
  Forall (fun t => t <> "") (tl (JsString.split "+" r)) <->
  last_char r <> Some "+"%char /\ ~ contains r "++".
Proof.
  induction r as [|c r IH].
  - cbn. rewrite contains_nil. split; [split; discriminate|constructor].
  - rewrite contains_cons, last_char_cons. cbn [JsString.split].
    destruct (JsString.split "+" r) as [|t ts] eqn:E;
      [now apply split_not_nil in E|].
    pose proof (split_head_empty _ _ _ _ E) as Ht.
    cbn [tl] in IH.
    destruct (Ascii.eqb_spec c "+") as [->|Hc]; cbn [tl].
    + rewrite Forall_cons_iff, IH, Ht.
      destruct r as [|c' r'].
      * split; [intros [H _]; exfalso; apply H; now left|].
        intros [H _]. congruence.
      * cbn [JsString.startsWith]. rewrite Ascii.eqb_refl.
        cbn [andb]. rewrite Bool.andb_true_r.
        destruct (Ascii.eqb_spec c' "+") as [->|Hc'].
        -- split; [intros [H _]; exfalso; apply H; right; eauto|].
           intros [_ H]. exfalso. apply H. now left.
        -- split.
           ++ intros (_ & H1 & H2). split; [assumption|].
              intros [?|?]; [discriminate|auto].
           ++ intros (H1 & H2). split; [|split; auto].
              intros [?|[s' [= ? _]]]; congruence.
    + rewrite IH. cbn [JsString.startsWith].
      apply Ascii.eqb_neq in Hc. rewrite Hc. cbn [andb].
      destruct r as [|c' r'].
      * rewrite contains_nil. apply Ascii.eqb_neq in Hc.
        cbn [last_char]. split; intros _; split.
        -- congruence.
        -- intros [?|?]; discriminate.
        -- discriminate.
        -- discriminate.
      * split; intros [H1 H2]; (split; [assumption|]); intuition discriminate.
Qed.

Lemma split_nonempty_iff r :
  Forall (fun t => t <> "") (JsString.split "+" r) <-> well_separated r.
Proof.
  unfold well_separated. destruct r as [|c r].
  - cbn. split; [intros H; inversion H; congruence|intros [H _]; congruence].
  - pose proof (split_tail_nonempty (String c r)) as Htl.
    cbn [JsString.split] in *. cbn [JsString.startsWith].
    rewrite Bool.andb_true_r.
    destruct (Ascii.eqb_spec c "+") as [->|Hc].
    + split; [intros H; inversion H; congruence|].
      intros (_ & H & _). discriminate.
    + destruct (JsString.split "+" r) as [|t ts] eqn:E;
        [now apply split_not_nil in E|].
      cbn [tl] in Htl. rewrite Forall_cons_iff, Htl.
      split; [intros (_ & H1 & H2)|intros (_ & _ & H1 & H2)];
        repeat split; auto; discriminate.
Qed.

(** ** Objects *)

Lemma ownKeys_define d k v k' :
  In k' (JsObject.ownKeys (JsObject.define d k v)) <->
  k' = k \/ In k' (JsObject.ownKeys d).
Proof.
  unfold JsObject.ownKeys. induction d as [|[k0 v0] d IH]; cbn.
  - intuition.
  - destruct (String.eqb_spec k0 k) as [->|Hk]; cbn; [intuition|].
    rewrite IH. intuition.
Qed.

Lemma NoDup_ownKeys_define d k v :
  NoDup (JsObject.ownKeys d) ->
  NoDup (JsObject.ownKeys (JsObject.define d k v)).
Proof.
  induction d as [|[k0 v0] d IH]; cbn.
  - intros _. constructor; [intros []|constructor].
  - intros H. inversion H as [|? ? Hin Hnd]; subst.
    destruct (String.eqb_spec k0 k) as [->|Hk]; cbn.
    + now constructor.
    + constructor; [|now apply IH].
      change (map fst (JsObject.define d k v))
        with (JsObject.ownKeys (JsObject.define d k v)).
      rewrite ownKeys_define. intros [?|?]; [congruence|contradiction].
Qed.

Lemma values_define d k :
  (forall k' v', In (k', v') d -> v' = true) ->
  forall k' v', In (k', v') (JsObject.define d k true) -> v' = true.
Proof.
  induction d as [|[k0 v0] d IH]; cbn; intros Hd k' v'.
  - intros [[= _ <-]|[]]. reflexivity.
  - destruct (String.eqb_spec k0 k) as [->|Hk]; cbn.
    + intros [[= _ <-]|H]; [reflexivity|]. eapply Hd; eauto.
    + intros [[= <- <-]|H]; [eapply Hd; eauto|].
      eapply IH; eauto.
Qed.

Lemma get_define_same d k v : JsObject.get (JsObject.define d k v) k = Some v.
Proof.
  induction d as [|[k0 v0] d IH]; cbn.
  - now rewrite String.eqb_refl.
  - destruct (String.eqb_spec k0 k) as [->|Hk]; cbn.
    + now rewrite String.eqb_refl.
    + apply String.eqb_neq in Hk. now rewrite Hk.
Qed.

Lemma get_define_other d k v k' :
  k' <> k -> JsObject.get (JsObject.define d k v) k' = JsObject.get d k'.
Proof.
  intros Hk'. induction d as [|[k0 v0] d IH]; cbn.
  - destruct (String.eqb_spec k k'); congruence.
  - destruct (String.eqb_spec k0 k) as [->|Hk]; cbn.
    + destruct (String.eqb_spec k k'); congruence.
    + now rewrite IH.
Qed.


(** An assignment to [__proto__] changes nothing; to any other name it
    defines an own property. *)
Lemma set_proto d v : JsObject.set d "__proto__" v = d.
Proof. reflexivity. Qed.

Lemma set_other d k v :
  k <> "__proto__" -> JsObject.set d k v = JsObject.define d k v.
Proof.
  intros H. unfold JsObject.set. apply String.eqb_neq in H. now rewrite H.
Qed.

Lemma ownKeys_set d k v k' :
  In k' (JsObject.ownKeys (JsObject.set d k v)) <->
  (k' = k /\ k <> "__proto__") \/ In k' (JsObject.ownKeys d).
Proof.
  unfold JsObject.set. destruct (String.eqb_spec k "__proto__") as [->|Hk].
  - intuition.
  - rewrite ownKeys_define. intuition.
Qed.

Lemma NoDup_ownKeys_set d k v :
  NoDup (JsObject.ownKeys d) -> NoDup (JsObject.ownKeys (JsObject.set d k v)).
Proof.
  unfold JsObject.set. destruct (String.eqb k "__proto__"); [auto|].
  apply NoDup_ownKeys_define.
Qed.

Lemma values_set d k :
  (forall k' v', In (k', v') d -> v' = true) ->
  forall k' v', In (k', v') (JsObject.set d k true) -> v' = true.
Proof.
  unfold JsObject.set. destruct (String.eqb k "__proto__"); [auto|].
  apply values_define.
Qed.

Lemma get_set_same d k v :
  k <> "__proto__" -> JsObject.get (JsObject.set d k v) k = Some v.
Proof.
  intros H. rewrite set_other by assumption. apply get_define_same.
Qed.

Lemma get_set_other d k v k' :
  k' <> k -> JsObject.get (JsObject.set d k v) k' = JsObject.get d k'.
Proof.
  intros H. unfold JsObject.set. destruct (String.eqb k "__proto__");
    [reflexivity|]. now apply get_define_other.
Qed.

Lemma get_set_true d k name :
  JsObject.get d k = Some true ->
  JsObject.get (JsObject.set d name true) k = Some true.
Proof.
  intros H. unfold JsObject.set.
  destruct (String.eqb name "__proto__"); [exact H|].
  destruct (String.eqb_spec k name) as [->|Hne].
  - apply get_define_same.
  - now rewrite get_define_other.
Qed.


Lemma get_true_in_keys d k :
  JsObject.get d k = Some true -> In k (JsObject.ownKeys d).
Proof.
  induction d as [|[k0 v0] d IH]; cbn; [discriminate|].
  destruct (String.eqb_spec k0 k) as [->|Hk]; auto.
Qed.

(** [Object.keys] lists every own property name once. *)
Lemma insert_index_perm n k l :
  Permutation (map snd (JsObject.insert_index n k l)) (k :: map snd l).
Proof.
  induction l as [|[m k'] l IH]; cbn; [reflexivity|].
  destruct (n <=? m)%N; cbn; [reflexivity|].
  rewrite IH. apply perm_swap.
Qed.

Lemma enumerate_perm names : Permutation (JsObject.enumerate names) names.
Proof.
  unfold JsObject.enumerate, JsObject.is_array_index.
  induction names as [|k names IH]; cbn; [reflexivity|].
  destruct (JsObject.array_index k) as [n|]; cbn.
  - rewrite insert_index_perm. cbn. now constructor.
  - rewrite <- Permutation_middle. now constructor.
Qed.

Lemma keys_perm d : Permutation (JsObject.keys d) (JsObject.ownKeys d).
Proof. apply enumerate_perm. Qed.

Lemma keys_length_ownKeys d :
  JsObject.keys_length d = List.length (JsObject.ownKeys d).
Proof. unfold JsObject.keys_length. apply Permutation_length, keys_perm. Qed.

(** ** The monad *)

Lemma outcome_bind {A B} (m : M A) (f : A -> M B) :
  outcome (bind m f) =
  match outcome m with
  | inl e => inl e
  | inr a => outcome (f a)
  end.
Proof.
  destruct m as [tr [e|a]]; cbn; [reflexivity|].
  destruct (f a); reflexivity.
Qed.

Lemma trace_bind {A B} (m : M A) (f : A -> M B) :
  trace (bind m f) =
  (trace m ++ match outcome m with
              | inl _ => []
              | inr a => trace (f a)
              end)%list.
Proof.
  destruct m as [tr [e|a]]; cbn; [now rewrite app_nil_r|].
  destruct (f a); reflexivity.
Qed.

Lemma outcome_mapM {A B} (f : A -> M B) (arr : list A) (ys : list B) :
  outcome (mapM f arr) = inr ys <->
  Forall2 (fun x y => outcome (f x) = inr y) arr ys.
Proof.
  revert ys. induction arr as [|x arr IH]; intros ys; cbn [mapM].
  - cbn. split; [intros [= <-]; constructor|intros H; now inversion H].
  - rewrite outcome_bind. destruct (outcome (f x)) as [e|y] eqn:Hx.
    + split; [discriminate|]. intros H. inversion H; congruence.
    + rewrite outcome_bind.
      destruct (outcome (mapM f arr)) as [e|ys'] eqn:Hm.
      * split; [discriminate|]. intros H. inversion H; subst.
        apply IH in H4. discriminate.
      * cbn. split.
        -- intros [= <-]. constructor; [assumption|now apply IH].
        -- intros H. inversion H; subst. apply IH in H4.
           congruence.
Qed.

Lemma mapM_total {A B} (f : A -> M B) (arr : list A) :
  (forall x, In x arr -> exists y, outcome (f x) = inr y) ->
  exists ys, outcome (mapM f arr) = inr ys.
Proof.
  induction arr as [|x arr IH]; intros H; cbn [mapM].
  - now exists [].
  - destruct (H x (or_introl eq_refl)) as [y Hy].
    destruct IH as [ys Hys]; [intros; apply H; now right|].
    exists (y :: ys). now rewrite outcome_bind, Hy, outcome_bind, Hys.
Qed.

Lemma mapM_error {A B} (f : A -> M B) (arr : list A) x e :
  In x arr -> outcome (f x) = inl e ->
  exists e', outcome (mapM f arr) = inl e'.
Proof.
  intros Hin Hx. destruct (outcome (mapM f arr)) as [e'|ys] eqn:Hm; eauto.
  apply outcome_mapM in Hm. exfalso.
  induction Hm as [|x' y' arr' ys' Hxy _ IH]; [contradiction|].
  destruct Hin as [->|Hin]; [congruence|auto].
Qed.

Lemma trace_mapM {A B} (f : A -> M B) (arr : list A) c :
  In c (trace (mapM f arr)) -> exists x, In x arr /\ In c (trace (f x)).
Proof.
  induction arr as [|x arr IH]; cbn [mapM]; [intros []|].
  rewrite trace_bind, in_app_iff. intros [H|H]; [exists x; cbn; auto|].
  destruct (outcome (f x)); [contradiction|].
  rewrite trace_bind, in_app_iff in H. destruct H as [H|H].
  - destruct (IH H) as (x' & ? & ?). exists x'. cbn. auto.
  - destruct (outcome (mapM f arr)); contradiction.
Qed.

(** ** Parsing one combination *)

Section CombinationFacts.

Context {EventType : Type}.
Variable standardizeKeyName : string -> ModifierContext -> exn + string.
Variable isValidKey : string -> exn + bool.

Let addKey' := @addKey EventType standardizeKeyName isValidKey.
Let parseCombination' := @parseCombination EventType standardizeKeyName isValidKey.
Let accepted' := @accepted EventType standardizeKeyName isValidKey.

Lemma outcome_addKey (o : Options.t EventType) ctx d k :
  outcome (addKey' o ctx d k) =
  match standardizeKeyName k ctx with
  | inl e => inl e
  | inr name =>
      if Options.ensureValidKeys o then
        match isValidKey name with
        | inl e => inl e
        | inr true => inr (JsObject.set d name true)
        | inr false => inl InvalidKeyNameError
        end
      else inr (JsObject.set d name true)
  end.
Proof.
  unfold addKey', addKey, call_standardizeKeyName, call_isValidKey.
  destruct (standardizeKeyName k ctx) as [e|name]; cbn; [reflexivity|].
  destruct (Options.ensureValidKeys o); cbn; [|reflexivity].
  destruct (isValidKey name) as [e|[|]]; reflexivity.
Qed.

Lemma trace_addKey (o : Options.t EventType) ctx d k c :
  In c (trace (addKey' o ctx d k)) ->
  c = CallStandardizeKeyName k ctx
  \/ (Options.ensureValidKeys o = true
      /\ exists name, standardizeKeyName k ctx = inr name
                      /\ c = CallIsValidKey name).
Proof.
  unfold addKey', addKey, call_standardizeKeyName, call_isValidKey.
  destruct (standardizeKeyName k ctx) as [e|name]; cbn.
  - intros [<-|[]]. now left.
  - destruct (Options.ensureValidKeys o); cbn.
    + destruct (isValidKey name) as [e|[|]]; cbn;
        (intros [<-|[<-|[]]]; [now left|right; eauto]).
    + intros [<-|[]]. now left.
Qed.

Lemma reduce_addKey_inv (o : Options.t EventType) ctx toks : forall d d',
  outcome (reduce (addKey' o ctx) toks d) = inr d' ->
  Forall (accepted' o ctx) toks
  /\ (forall k, In k (JsObject.ownKeys d') <->
                In k (JsObject.ownKeys d)
                \/ (k <> "__proto__"
                    /\ exists t, In t toks /\ standardizeKeyName t ctx = inr k))
  /\ (NoDup (JsObject.ownKeys d) -> NoDup (JsObject.ownKeys d'))
  /\ ((forall k v, In (k, v) d -> v = true) ->
      forall k v, In (k, v) d' -> v = true)
  /\ (forall k, JsObject.get d k = Some true -> JsObject.get d' k = Some true).
Proof.
  induction toks as [|t toks IH]; intros d d'; cbn [reduce].
  - intros [= <-]. repeat split; auto.
    intros [H|(_ & t & [] & _)]; exact H.
  - rewrite outcome_bind, outcome_addKey.
    destruct (standardizeKeyName t ctx) as [e|name] eqn:Hstd; [discriminate|].
    assert (Hgo : outcome (reduce (addKey' o ctx) toks (JsObject.set d name true))
                  = inr d' ->
                  (Options.ensureValidKeys o = true ->
                   isValidKey name = inr true) ->
                  Forall (accepted' o ctx) (t :: toks)
                  /\ (forall k, In k (JsObject.ownKeys d') <->
                        In k (JsObject.ownKeys d)
                        \/ (k <> "__proto__"
                            /\ exists t', In t' (t :: toks)
                                          /\ standardizeKeyName t' ctx = inr k))
                  /\ (NoDup (JsObject.ownKeys d) ->
                      NoDup (JsObject.ownKeys d'))
                  /\ ((forall k v, In (k, v) d -> v = true) ->
                      forall k v, In (k, v) d' -> v = true)
                  /\ (forall k, JsObject.get d k = Some true ->
                                JsObject.get d' k = Some true)).
    { intros Hr Hv. apply IH in Hr as (Hacc & Hkeys & Hnd & Hval & Hget).
      split; [constructor; [exists name; auto|assumption]|]. split; [|split; [|split]].
      - intros k. rewrite Hkeys, ownKeys_set. split.
        + intros [[[-> Hp]|H]|(Hp & t' & Hin & Ht')]; auto.
          * right. split; [exact Hp|]. exists t. cbn. auto.
          * right. split; [exact Hp|]. exists t'. cbn. auto.
        + intros [H|(Hp & t' & [<-|Hin] & Ht')]; auto.
          * left. left. split; congruence.
          * right. eauto.
      - intros H. now apply Hnd, NoDup_ownKeys_set.
      - intros H. now apply Hval, values_set.
      - intros k Hk. now apply Hget, get_set_true. }
    destruct (Options.ensureValidKeys o); [|intros H; apply Hgo; easy].
    destruct (isValidKey name) as [e|[|]]; try discriminate.
    intros H. now apply Hgo.
Qed.

Lemma reduce_addKey_total (o : Options.t EventType) ctx toks : forall d,
  Forall (accepted' o ctx) toks ->
  exists d', outcome (reduce (addKey' o ctx) toks d) = inr d'.
Proof.
  induction toks as [|t toks IH]; intros d H; cbn [reduce].
  - now exists d.
  - inversion H as [|? ? (name & Hstd & Hv) Htoks]; subst.
    rewrite outcome_bind, outcome_addKey, Hstd.
    destruct (Options.ensureValidKeys o); [rewrite Hv by reflexivity|];
      now apply IH.
Qed.

Lemma reduce_addKey_inserted (o : Options.t EventType) ctx toks : forall d d' t name,
  outcome (reduce (addKey' o ctx) toks d) = inr d' ->
  In t toks -> standardizeKeyName t ctx = inr name ->
  name <> "__proto__" ->
  JsObject.get d' name = Some true.
Proof.
  induction toks as [|t0 toks IH]; intros d d' t name; cbn [reduce];
    [intros _ []|].
  rewrite outcome_bind, outcome_addKey.
  destruct (standardizeKeyName t0 ctx) as [e|name0] eqn:Hstd0;
    [discriminate|].
  intros Hr [->|Hin] Hstd Hproto.
  - assert (name0 = name) as -> by congruence.
    assert (Hnext : outcome (reduce (addKey' o ctx) toks
                               (JsObject.set d name true)) = inr d').
    { destruct (Options.ensureValidKeys o); [|exact Hr].
      destruct (isValidKey name) as [e|[|]]; try discriminate. exact Hr. }
    apply reduce_addKey_inv in Hnext as (_ & _ & _ & _ & Hget).
    now apply Hget, get_set_same.
  - destruct (Options.ensureValidKeys o);
      [destruct (isValidKey name0) as [e|[|]]; try discriminate|];
      eapply IH; eauto.
Qed.

Lemma trace_reduce_addKey (o : Options.t EventType) ctx toks : forall d c,
  In c (trace (reduce (addKey' o ctx) toks d)) ->
  (exists t, In t toks /\ c = CallStandardizeKeyName t ctx)
  \/ (Options.ensureValidKeys o = true
      /\ exists t name, In t toks /\ standardizeKeyName t ctx = inr name
                        /\ c = CallIsValidKey name).
Proof.
  induction toks as [|t toks IH]; intros d c; cbn [reduce]; [intros []|].
  rewrite trace_bind, in_app_iff. intros [H|H].
  - apply trace_addKey in H as [->|(Hv & name & Hstd & ->)].
    + left. exists t. cbn. auto.
    + right. split; [assumption|]. exists t, name. cbn. auto.
  - destruct (outcome (addKey' o ctx d t)) as [e|d1]; [contradiction|].
    apply IH in H as [(t' & Hin & ->)|(Hv & t' & name & Hin & Hstd & ->)].
    + left. exists t'. cbn. auto.
    + right. split; [assumption|]. exists t', name. cbn. auto.
Qed.

(** [parseCombination] succeeds exactly when every token is accepted. *)
Lemma parseCombination_ok_iff (o : Options.t EventType) str :
  (exists d, outcome (parseCombination' str o) = inr d) <->
  Forall (accepted' o (modifierContext str)) (tokens str).
Proof.
  unfold parseCombination', parseCombination. split.
  - intros [d H]. now apply reduce_addKey_inv in H.
  - apply reduce_addKey_total.
Qed.

(** The dictionary [parseCombination] returns. *)
Lemma parseCombination_dictionary (o : Options.t EventType) str d :
  outcome (parseCombination' str o) = inr d ->
  (forall k, In k (JsObject.ownKeys d) <->
             k <> "__proto__"
             /\ exists t, In t (tokens str)
                          /\ standardizeKeyName t (modifierContext str) = inr k)
  /\ NoDup (JsObject.ownKeys d)
  /\ (forall k v, In (k, v) d -> v = true).
Proof.
  unfold parseCombination', parseCombination. intros H.
  apply reduce_addKey_inv in H as (_ & Hkeys & Hnd & Hval & _).
  split; [|split].
  - intros k. rewrite Hkeys. cbn. intuition.
  - apply Hnd. constructor.
  - apply Hval. intros k v [].
Qed.

End CombinationFacts.

(** ** Parsing a sequence *)

Lemma terminalCombination_last arr :
  arr <> [] ->
  exists term,
    terminalCombination arr = Some term
    /\ arr = (nonTerminalCombinations arr ++ [term])%list.
Proof.
  unfold terminalCombination, nonTerminalCombinations.
  intros H. destruct (exists_last H) as (l & term & ->).
  exists term. rewrite length_app. cbn [List.length].
  replace (List.length l + 1 - 1) with (List.length l) by lia.
  rewrite nth_error_app2, Nat.sub_diag by lia.
  rewrite firstn_app, Nat.sub_diag, firstn_all. cbn.
  now rewrite app_nil_r.
Qed.

Lemma length_nonTerminalCombinations arr :
  arr <> [] -> List.length (nonTerminalCombinations arr) + 1 = List.length arr.
Proof.
  intros H. destruct (terminalCombination_last arr H) as (term & _ & E).
  rewrite E at 2. rewrite length_app. reflexivity.
Qed.

Section SequenceFacts.

Context {EventType : Type}.
Variable stripSuperfluousWhitespace : string -> string.
Variable standardizeKeyName : string -> ModifierContext -> exn + string.
Variable isValidKey : string -> exn + bool.
Variable normalizedCombinationId : KeyDictionary -> exn + string.

Let keyCombinationsArray' := keyCombinationsArray stripSuperfluousWhitespace.
Let parseCombination' := @parseCombination EventType standardizeKeyName isValidKey.
Let combinationId' :=
  @combinationId EventType standardizeKeyName isValidKey normalizedCombinationId.
Let parse_try' :=
  @parse_try EventType stripSuperfluousWhitespace standardizeKeyName isValidKey
    normalizedCombinationId.
Let parse' :=
  @parse EventType stripSuperfluousWhitespace standardizeKeyName isValidKey
    normalizedCombinationId.

Lemma keyCombinationsArray_not_nil s : keyCombinationsArray' s <> [].
Proof. apply split_not_nil. Qed.

Lemma outcome_combinationId (o : Options.t EventType) str :
  outcome (combinationId' o str) =
  match outcome (parseCombination' str o) with
  | inl e => inl e
  | inr d => normalizedCombinationId d
  end.
Proof.
  unfold combinationId', combinationId. now rewrite outcome_bind.
Qed.

(** The outcome of the [try] block, step by step. *)
Lemma outcome_parse_try s (o : Options.t EventType) :
  outcome (parse_try' s o) =
  match outcome (mapM (combinationId' o)
                   (nonTerminalCombinations (keyCombinationsArray' s))) with
  | inl e => inl e
  | inr ids =>
      match terminalCombination (keyCombinationsArray' s) with
      | None => inl TypeError
      | Some term =>
          match outcome (parseCombination' term o) with
          | inl e => inl e
          | inr d =>
              match normalizedCombinationId d with
              | inl e => inl e
              | inr i =>
                  inr {| sequence :=
                           Some (BasicKeySequence.make (JsString.join " " ids)
                                   (List.length (nonTerminalCombinations
                                                   (keyCombinationsArray' s)) + 1));
                         combination :=
                           Some (BasicKeyCombination.make i d
                                   (Options.keyEventType o)
                                   (JsObject.keys_length d)) |}
              end
          end
      end
  end.
Proof.
  unfold parse_try', parse_try. rewrite outcome_bind.
  fold keyCombinationsArray'. fold combinationId'.
  destruct (outcome (mapM (combinationId' o) _)) as [e|ids]; [reflexivity|].
  rewrite outcome_bind.
  destruct (terminalCombination (keyCombinationsArray' s)) as [term|];
    [|reflexivity].
  fold parseCombination'.
  destruct (outcome (parseCombination' term o)) as [e|d]; [reflexivity|].
  rewrite outcome_bind. unfold call_normalizedCombinationId. cbn.
  destruct (normalizedCombinationId d); reflexivity.
Qed.

(** What a result with a field that is not null tells. *)
Lemma parse_success_inv s (o : Options.t EventType) :
  sequence (parse' s o) <> None \/ combination (parse' s o) <> None ->
  exists ids term d i,
    Forall2 (fun str y => exists d', outcome (parseCombination' str o) = inr d'
                                     /\ normalizedCombinationId d' = inr y)
      (nonTerminalCombinations (keyCombinationsArray' s)) ids
    /\ terminalCombination (keyCombinationsArray' s) = Some term
    /\ outcome (parseCombination' term o) = inr d
    /\ normalizedCombinationId d = inr i
    /\ parse' s o =
       {| sequence :=
            Some (BasicKeySequence.make (JsString.join " " ids)
                    (List.length (nonTerminalCombinations
                                    (keyCombinationsArray' s)) + 1));
          combination :=
            Some (BasicKeyCombination.make i d (Options.keyEventType o)
                    (JsObject.keys_length d)) |}.
Proof.
  unfold parse', parse. fold parse_try'. rewrite outcome_parse_try.
  destruct (outcome (mapM (combinationId' o) _)) as [e|ids] eqn:Hm;
    [cbn; intros [H|H]; congruence|].
  destruct (terminalCombination (keyCombinationsArray' s)) as [term|] eqn:Ht;
    [|cbn; intros [H|H]; congruence].
  destruct (outcome (parseCombination' term o)) as [e|d] eqn:Hd;
    [cbn; intros [H|H]; congruence|].
  destruct (normalizedCombinationId d) as [e|i] eqn:Hi;
    [cbn; intros [H|H]; congruence|].
  intros _. exists ids, term, d, i. repeat split; auto.
  apply outcome_mapM in Hm.
  eapply Forall2_impl; [|exact Hm]. cbn. intros str y.
  rewrite outcome_combinationId.
  destruct (outcome (parseCombination' str o)) as [e|d']; [discriminate|].
  intros H. exists d'. split; [reflexivity|exact H].
Qed.

(** Any exception in the [try] block gives the failure result. *)
Lemma parse_error s (o : Options.t EventType) e :
  outcome (parse_try' s o) = inl e -> parse' s o = failure.
Proof.
  unfold parse', parse. fold parse_try'. now intros ->.
Qed.

(** An exception while parsing any combination reaches the [try] block. *)
Lemma parse_try_combination_error s (o : Options.t EventType) str e :
  In str (keyCombinationsArray' s) ->
  outcome (parseCombination' str o) = inl e ->
  exists e', outcome (parse_try' s o) = inl e'.
Proof.
  intros Hin Herr. rewrite outcome_parse_try.
  destruct (terminalCombination_last _ (keyCombinationsArray_not_nil s))
    as (term & Hterm & Harr).
  rewrite Hterm. rewrite Harr, in_app_iff in Hin.
  destruct (outcome (mapM (combinationId' o) _)) as [e'|ids] eqn:Hm; eauto.
  destruct Hin as [Hin|[<-|[]]].
  - assert (Hc : outcome (combinationId' o str) = inl e)
      by now rewrite outcome_combinationId, Herr.
    destruct (mapM_error _ _ _ _ Hin Hc). congruence.
  - rewrite Herr. eauto.
Qed.

(** With helpers that never throw, [parse] succeeds when every token of
    every combination is accepted. *)
Lemma parse_try_total s (o : Options.t EventType) :
  (forall d, exists i, normalizedCombinationId d = inr i) ->
  (forall str, In str (keyCombinationsArray' s) ->
     Forall (accepted standardizeKeyName isValidKey o (modifierContext str))
       (tokens str)) ->
  exists r, outcome (parse_try' s o) = inr r.
Proof.
  intros Hnorm Hacc. rewrite outcome_parse_try.
  destruct (terminalCombination_last _ (keyCombinationsArray_not_nil s))
    as (term & Hterm & Harr).
  rewrite Hterm.
  assert (Hall : forall str, In str (keyCombinationsArray' s) ->
            exists d, outcome (parseCombination' str o) = inr d).
  { intros str Hin. apply parseCombination_ok_iff. auto. }
  destruct (mapM_total (combinationId' o)
              (nonTerminalCombinations (keyCombinationsArray' s))) as [ids ->].
  { intros str Hin. rewrite outcome_combinationId.
    destruct (Hall str) as [d ->]; [rewrite Harr, in_app_iff; auto|].
    apply Hnorm. }
  destruct (Hall term) as [d ->]; [rewrite Harr, in_app_iff; cbn; auto|].
  destruct (Hnorm d) as [i ->]. eauto.
Qed.

Lemma outcome_parse_try_inv s (o : Options.t EventType) r :
  outcome (parse_try' s o) = inr r ->
  exists ids term d i,
    terminalCombination (keyCombinationsArray' s) = Some term
    /\ outcome (parseCombination' term o) = inr d
    /\ normalizedCombinationId d = inr i
    /\ r = {| sequence :=
                Some (BasicKeySequence.make (JsString.join " " ids)
                        (List.length (nonTerminalCombinations
                                        (keyCombinationsArray' s)) + 1));
              combination :=
                Some (BasicKeyCombination.make i d (Options.keyEventType o)
                        (JsObject.keys_length d)) |}.
Proof.
  rewrite outcome_parse_try.
  destruct (outcome (mapM (combinationId' o) _)) as [e|ids]; [discriminate|].
  destruct (terminalCombination (keyCombinationsArray' s)) as [term|];
    [|discriminate].
  destruct (outcome (parseCombination' term o)) as [e|d] eqn:Hd;
    [discriminate|].
  destruct (normalizedCombinationId d) as [e|i] eqn:Hi; [discriminate|].
  intros [= <-]. exists ids, term, d, i. auto.
Qed.

(** The calls of the [try] block: those of the combinations it parses and
    those to the normalizer. *)
Lemma parse_calls_inv s (o : Options.t EventType) c :
  In c (trace (parse_try' s o)) ->
  (exists str, In str (keyCombinationsArray' s)
               /\ In c (trace (parseCombination' str o)))
  \/ exists d, c = CallNormalizedCombinationId d.
Proof.
  destruct (terminalCombination_last _ (keyCombinationsArray_not_nil s))
    as (term & Hterm & Harr).
  unfold parse_try', parse_try. fold keyCombinationsArray'.
  rewrite Hterm, trace_bind, in_app_iff. intros [H|H].
  - apply trace_mapM in H as (str & Hin & H).
    unfold combinationId in H. fold parseCombination' in H.
    rewrite trace_bind, in_app_iff in H. destruct H as [H|H].
    + left. exists str. split; [|exact H].
      rewrite Harr, in_app_iff. now left.
    + destruct (outcome (parseCombination' str o)) as [e|d]; [contradiction|].
      destruct H as [<-|[]]. right. eauto.
  - destruct (outcome (mapM _ _)) as [e|ids]; [contradiction|].
    fold parseCombination' in H.
    rewrite trace_bind, in_app_iff in H. destruct H as [H|H].
    + left. exists term. split; [|exact H].
      rewrite Harr, in_app_iff. cbn. auto.
    + destruct (outcome (parseCombination' term o)) as [e|d]; [contradiction|].
      rewrite trace_bind, in_app_iff in H. destruct H as [[<-|[]]|H].
      * right. eauto.
      * cbn in H. destruct (normalizedCombinationId d); contradiction.
Qed.

End SequenceFacts.

(** ** Validation *)

Section ValidationFacts.

Context {EventType : Type}.
Variable standardizeKeyName : string -> ModifierContext -> exn + string.
Variable isValidKey : string -> exn + bool.

Let addKey' := @addKey EventType standardizeKeyName isValidKey.
Let parseCombination' := @parseCombination EventType standardizeKeyName isValidKey.

(** With a standardizer and a validity check that never throw, the only
    exception of [parseCombination] is [InvalidKeyNameError]. *)
Lemma reduce_addKey_error_kind (o : Options.t EventType) ctx toks : forall d e,
  (forall k c, exists name, standardizeKeyName k c = inr name) ->
  total isValidKey ->
  outcome (reduce (addKey' o ctx) toks d) = inl e ->
  e = InvalidKeyNameError.
Proof.
  intros d e Hstd Hvalid. revert d.
  induction toks as [|t toks IH]; intros d; cbn [reduce]; [discriminate|].
  unfold addKey'. rewrite outcome_bind, outcome_addKey.
  destruct (Hstd t ctx) as [name ->].
  destruct (Options.ensureValidKeys o); [|apply IH].
  destruct (Hvalid name) as [[|] ->]; [apply IH|congruence].
Qed.

(** Without validation the validity check is not called. *)
Lemma parseCombination_no_validity_call (o : Options.t EventType) str name :
  Options.ensureValidKeys o = false ->
  ~ In (CallIsValidKey name) (trace (parseCombination' str o)).
Proof.
  intros Ho H. unfold parseCombination', parseCombination in H.
  apply trace_reduce_addKey in H
    as [(t & _ & [=])|(Hv & _)]. congruence.
Qed.

(** With validation, a token whose name is not valid makes
    [parseCombination] throw. *)
Lemma parseCombination_invalid (o : Options.t EventType) str tok name :
  Options.ensureValidKeys o = true ->
  In tok (tokens str) ->
  standardizeKeyName tok (modifierContext str) = inr name ->
  isValidKey name = inr false ->
  exists e, outcome (parseCombination' str o) = inl e.
Proof.
  intros Ho Hin Hstd Hv.
  destruct (outcome (parseCombination' str o)) as [e|d] eqn:Hd; eauto.
  exfalso.
  assert (Hok : exists d, outcome (parseCombination' str o) = inr d) by eauto.
  apply parseCombination_ok_iff in Hok.
  rewrite Forall_forall in Hok.
  destruct (Hok tok Hin) as (name' & Hstd' & Hv').
  rewrite Hstd in Hstd'. injection Hstd' as <-.
  rewrite Hv' in Hv by assumption. discriminate.
Qed.

End ValidationFacts.

(** ** The tokenizer *)

(** C8: the claim says that every token of a non-empty combination substring
    without surrounding white space is non-empty.  It fails on [a+], whose
    tokens are [a] and the empty string. *)
Lemma tokens_nonempty_counterexample :
  "a+" <> "" /\ trimmed "a+" /\ tokens "a+" = ["a"; ""]
  /\ ~ Forall (fun t => t <> "") (tokens "a+").
Proof.
  split; [discriminate|]. split; [|split; [reflexivity|]].
  - split.
    + intros c s' [= <- _]. reflexivity.
    + intros c [= <-]. reflexivity.
  - intros H. inversion H as [|? ? _ H']. inversion H' as [|? ? Hne _].
    now apply Hne.
Qed.

(** C8, amended: for every combination substring the tokens form a
    non-empty list, in order, of strings without [+] that joined by [+]
    give the rewritten string back; all of them are non-empty exactly when
    the rewritten string is not empty, neither starts nor ends with [+] and
    has no two [+] in a row. *)
Theorem tokens_nonempty_iff (str : string) :
  tokens str <> []
  /\ JsString.join "+" (tokens str) = escapePlus str
  /\ Forall (fun t => count_char "+" t = 0) (tokens str)
  /\ (Forall (fun t => t <> "") (tokens str) <-> well_separated (escapePlus str)).
Proof.
  unfold tokens. split; [apply split_not_nil|].
  split; [apply join_split|].
  split; [apply split_pieces_free|apply split_nonempty_iff].
Qed.

(** ** The modifier context *)

Lemma modifierContext_spec str :
  (shift (modifierContext str) = true <-> contains str "/[sS]hift/")
  /\ (alt (modifierContext str) = true <-> contains str "/[aA]lt/").
Proof.
  split; apply indexOf_found_iff.
Qed.

(** C10: every call [parseCombination] makes to the standardizer passes the
    modifier context computed from the whole combination substring, and in
    it [shift] (respectively [alt]) is false when the substring does not
    contain the characters [/[sS]hift/] (respectively [/[aA]lt/]); there is
    always such a call. *)
Theorem modifier_context_needs_regexp_text {EventType : Type}
    (standardizeKeyName : string -> ModifierContext -> exn + string)
    (isValidKey : string -> exn + bool)
    (str : string) (options : Options.t EventType)
    (keyName : string) (ctx : ModifierContext) :
  In (CallStandardizeKeyName keyName ctx)
     (trace (parseCombination standardizeKeyName isValidKey str options)) ->
  ctx = modifierContext str
  /\ (~ contains str "/[sS]hift/" -> shift ctx = false)
  /\ (~ contains str "/[aA]lt/" -> alt ctx = false)
  /\ (exists first, In (CallStandardizeKeyName first (modifierContext str))
                       (trace (parseCombination standardizeKeyName isValidKey
                                 str options))).
Proof.
  intros H.
  assert (Hfirst : exists first,
             In (CallStandardizeKeyName first (modifierContext str))
                (trace (parseCombination standardizeKeyName isValidKey
                          str options))).
  { unfold parseCombination.
    destruct (tokens str) as [|t ts] eqn:E;
      [now apply split_not_nil in E|].
    exists t. cbn [reduce]. rewrite trace_bind, in_app_iff. left.
    unfold addKey. rewrite trace_bind, in_app_iff. left. cbn. auto. }
  cut (ctx = modifierContext str
       /\ (~ contains str "/[sS]hift/" -> shift ctx = false)
       /\ (~ contains str "/[aA]lt/" -> alt ctx = false));
    [intros (A & B & C); auto|].
  unfold parseCombination in H.
  apply trace_reduce_addKey in H
    as [(t & _ & [= _ ->])|(_ & t & name & _ & _ & [=])].
  split; [reflexivity|].
  destruct (modifierContext_spec str) as [Hs Ha].
  split; intros Hn.
  - destruct (shift (modifierContext str)); [|reflexivity].
    exfalso. now apply Hn, Hs.
  - destruct (alt (modifierContext str)); [|reflexivity].
    exfalso. now apply Hn, Ha.
Qed.

Lemma modifier_context_needs_regexp_text_witness :
  In (CallStandardizeKeyName "shift" {| shift := false; alt := false |})
     (trace (parseCombination Helpers.std Helpers.valid "shift+a"
               (Options.make 0 false)))
  /\ ~ contains "shift+a" "/[sS]hift/"
  /\ ~ contains "shift+a" "/[aA]lt/"
  /\ {| shift := false; alt := false |} = modifierContext "shift+a".
Proof.
  assert (H : In (CallStandardizeKeyName "shift" {| shift := false; alt := false |})
                (trace (parseCombination Helpers.std Helpers.valid "shift+a"
                          (Options.make 0 false))))
    by (vm_compute; left; reflexivity).
  split; [exact H|].
  split; [intros C; apply indexOf_found_iff in C; discriminate|].
  split; [intros C; apply indexOf_found_iff in C; discriminate|].
  exact (proj1 (modifier_context_needs_regexp_text Helpers.std Helpers.valid
                  "shift+a" (Options.make 0 false) "shift"
                  {| shift := false; alt := false |} H)).
Defined.

(** C2: the claim wants [shift] (respectively [alt]) to be true exactly when
    the substring contains that word, whatever the case of its letters.  On
    [shift+a] and on [alt+b] the word is there, the regular expression of
    the source matches it, and still [indexOf] returns -1 and the
    standardizer receives [{ shift: false, alt: false }] at every call. *)
Theorem modifier_words_undetected :
  contains_ignoring_case "shift+a" "shift"
  /\ RegExp.exec re_shift "shift+a" = Some (RegExp.mkFound 0 None "+a")
  /\ JsString.indexOf "shift+a" (RegExp.toString re_shift) = (-1)%Z
  /\ modifierContext "shift+a" = {| shift := false; alt := false |}
  /\ trace (parseCombination Helpers.std Helpers.valid "shift+a"
              (Options.make 0 false))
     = [CallStandardizeKeyName "shift" {| shift := false; alt := false |};
        CallStandardizeKeyName "a" {| shift := false; alt := false |}]
  /\ contains_ignoring_case "alt+b" "alt"
  /\ RegExp.exec re_alt "alt+b" = Some (RegExp.mkFound 0 None "+b")
  /\ JsString.indexOf "alt+b" (RegExp.toString re_alt) = (-1)%Z
  /\ modifierContext "alt+b" = {| shift := false; alt := false |}
  /\ trace (parseCombination Helpers.std Helpers.valid "alt+b"
              (Options.make 0 false))
     = [CallStandardizeKeyName "alt" {| shift := false; alt := false |};
        CallStandardizeKeyName "b" {| shift := false; alt := false |}].
Proof.
  repeat split.
  - now exists "", "+a".
  - now exists "", "+b".
Qed.

Lemma mapM_error_inv {A B} (f : A -> M B) (arr : list A) e :
  outcome (mapM f arr) = inl e -> exists x, In x arr /\ outcome (f x) = inl e.
Proof.
  induction arr as [|x arr IH]; cbn [mapM]; [discriminate|].
  rewrite outcome_bind. destruct (outcome (f x)) as [e'|y] eqn:Hx.
  - intros [= <-]. exists x. cbn. auto.
  - rewrite outcome_bind. destruct (outcome (mapM f arr)) as [e'|ys];
      [|discriminate].
    intros [= <-]. destruct IH as (x' & Hin & Hx'); [reflexivity|].
    exists x'. cbn. auto.
Qed.

(** With helpers that never throw, the only exception of the [try] block is
    [InvalidKeyNameError]. *)
Lemma parse_try_error_kind {EventType : Type}
    (stripSuperfluousWhitespace : string -> string)
    (standardizeKeyName : string -> ModifierContext -> exn + string)
    (isValidKey : string -> exn + bool)
    (normalizedCombinationId : KeyDictionary -> exn + string)
    (s : string) (o : Options.t EventType) (e : exn) :
  (forall k c, exists name, standardizeKeyName k c = inr name) ->
  total isValidKey ->
  total normalizedCombinationId ->
  outcome (parse_try stripSuperfluousWhitespace standardizeKeyName isValidKey
             normalizedCombinationId s o) = inl e ->
  e = InvalidKeyNameError.
Proof.
  intros Hstd Hvalid Hnorm. rewrite outcome_parse_try.
  destruct (outcome (mapM _ _)) as [e'|ids] eqn:Hm.
  - intros [= <-]. apply mapM_error_inv in Hm as (str & _ & Hstr).
    rewrite outcome_combinationId in Hstr.
    destruct (outcome (parseCombination _ _ str o)) as [e''|d] eqn:Hd.
    + injection Hstr as <-.
      eapply reduce_addKey_error_kind; eauto.
    + destruct (Hnorm d) as [i Hi]. congruence.
  - destruct (terminalCombination_last _
                (keyCombinationsArray_not_nil stripSuperfluousWhitespace s))
      as (term & -> & _).
    destruct (outcome (parseCombination _ _ term o)) as [e''|d] eqn:Hd.
    + intros [= <-]. eapply reduce_addKey_error_kind; eauto.
    + destruct (Hnorm d) as [i ->]. discriminate.
Qed.

(** ** The event type tag *)

Lemma reduce_ext {A B} (f g : B -> A -> M B) (arr : list A) :
  (forall b x, f b x = g b x) -> forall acc, reduce f arr acc = reduce g arr acc.
Proof.
  intros H. induction arr as [|x arr IH]; intros acc; cbn [reduce];
    [reflexivity|].
  rewrite H. destruct (g acc x) as [tr [e|b]]; cbn; [reflexivity|].
  now rewrite IH.
Qed.

Lemma mapM_ext {A B} (f g : A -> M B) (arr : list A) :
  (forall x, f x = g x) -> mapM f arr = mapM g arr.
Proof.
  intros H. induction arr as [|x arr IH]; cbn [mapM]; [reflexivity|].
  now rewrite H, IH.
Qed.

(** [parseCombination] reads [options.ensureValidKeys] and nothing else. *)
Lemma parseCombination_ensureValidKeys {E E'}
    (standardizeKeyName : string -> ModifierContext -> exn + string)
    (isValidKey : string -> exn + bool)
    (str : string) (o : Options.t E) (o' : Options.t E') :
  Options.ensureValidKeys o = Options.ensureValidKeys o' ->
  parseCombination standardizeKeyName isValidKey str o
  = parseCombination standardizeKeyName isValidKey str o'.
Proof.
  intros H. unfold parseCombination. apply reduce_ext.
  intros b x. unfold addKey. now rewrite H.
Qed.

Lemma parse_map_options {E E'} (f : E -> E')
    (stripSuperfluousWhitespace : string -> string)
    (standardizeKeyName : string -> ModifierContext -> exn + string)
    (isValidKey : string -> exn + bool)
    (normalizedCombinationId : KeyDictionary -> exn + string)
    (s : string) (o : Options.t E) :
  parse stripSuperfluousWhitespace standardizeKeyName isValidKey
    normalizedCombinationId s (map_options f o)
  = map_result f
      (parse stripSuperfluousWhitespace standardizeKeyName isValidKey
         normalizedCombinationId s o).
Proof.
  unfold parse. rewrite !outcome_parse_try.
  assert (Hpc : forall str,
            parseCombination standardizeKeyName isValidKey str (map_options f o)
            = parseCombination standardizeKeyName isValidKey str o)
    by (intros str; now apply parseCombination_ensureValidKeys).
  rewrite (mapM_ext
             (combinationId standardizeKeyName isValidKey
                normalizedCombinationId (map_options f o))
             (combinationId standardizeKeyName isValidKey
                normalizedCombinationId o))
    by (intros str; unfold combinationId; now rewrite Hpc).
  destruct (outcome (mapM _ _)) as [e|ids]; [reflexivity|].
  destruct (terminalCombination _) as [term|]; [|reflexivity].
  rewrite Hpc.
  destruct (outcome (parseCombination _ _ term o)) as [e|d]; [reflexivity|].
  destruct (normalizedCombinationId d); reflexivity.
Qed.

(** ** The result of [parse] *)

Section Claims.

Context {EventType : Type}.
Variable stripSuperfluousWhitespace : string -> string.
Variable standardizeKeyName : string -> ModifierContext -> exn + string.
Variable isValidKey : string -> exn + bool.
Variable normalizedCombinationId : KeyDictionary -> exn + string.

Let keyCombinationsArray' := keyCombinationsArray stripSuperfluousWhitespace.
Let parseCombination' := @parseCombination EventType standardizeKeyName isValidKey.
Let parse_try' :=
  @parse_try EventType stripSuperfluousWhitespace standardizeKeyName isValidKey
    normalizedCombinationId.
Let parse' :=
  @parse EventType stripSuperfluousWhitespace standardizeKeyName isValidKey
    normalizedCombinationId.

(** C1: whatever exception the [try] block throws, and in particular
    whatever exception the parsing of one of the combinations throws,
    [parse] returns [{ sequence: null, combination: null }]; the two fields
    of a result are null together or populated together. *)
Theorem parse_failure_policy (s : string) (options : Options.t EventType) :
  (forall e, outcome (parse_try' s options) = inl e -> parse' s options = failure)
  /\ (forall str e,
        In str (keyCombinationsArray' s) ->
        outcome (parseCombination' str options) = inl e ->
        parse' s options = failure)
  /\ ((sequence (parse' s options) = None /\ combination (parse' s options) = None)
      \/ (exists sq c, sequence (parse' s options) = Some sq
                       /\ combination (parse' s options) = Some c)).
Proof.
  split; [intros e; apply parse_error|]. split.
  - intros str e Hin Herr.
    destruct (parse_try_combination_error stripSuperfluousWhitespace
                standardizeKeyName isValidKey normalizedCombinationId
                s options str e Hin Herr) as [e' He'].
    exact (parse_error _ _ _ _ _ _ _ He').
  - unfold parse', parse.
    destruct (outcome _) as [e|r] eqn:Hr; [left; split; reflexivity|].
    right. fold parse_try' in Hr. unfold parse_try' in Hr.
    rewrite outcome_parse_try in Hr.
    destruct (outcome (mapM _ _)) as [e|ids]; [discriminate|].
    destruct (terminalCombination _) as [term|]; [|discriminate].
    destruct (outcome (parseCombination _ _ term options))
      as [e|d]; [discriminate|].
    destruct (normalizedCombinationId d) as [e|i]; [discriminate|].
    injection Hr as <-. cbn. eauto.
Qed.

(** C9: the [keyEventType] of the combination record of a successful parse
    is [options.keyEventType]; and the parser commutes with any change of
    the tag, so it neither inspects nor transforms it. *)
Theorem keyEventType_copied (s : string) (options : Options.t EventType)
    (c : BasicKeyCombination.t EventType) :
  combination (parse' s options) = Some c ->
  BasicKeyCombination.keyEventType c = Options.keyEventType options
  /\ forall (E' : Type) (f : EventType -> E'),
       parse stripSuperfluousWhitespace standardizeKeyName isValidKey
         normalizedCombinationId s (map_options f options)
       = map_result f (parse' s options).
Proof.
  intros H. split; [|intros E' f; apply parse_map_options].
  destruct (parse_success_inv stripSuperfluousWhitespace standardizeKeyName
              isValidKey normalizedCombinationId s options)
    as (ids & term & d & i & _ & _ & _ & _ & Hp).
  { right. fold parse'. congruence. }
  fold parse' in Hp. rewrite Hp in H. cbn in H. now injection H as <-.
Qed.

(** C7: the [size] of the sequence record of a successful parse is the
    number of pieces the white-space-normalized input splits into at its
    spaces, one more than the number of spaces and one more than the number
    of non-terminal combinations; without a space in the normalized input
    the [prefix] is the empty string. *)
Theorem sequence_size_counts_combinations (s : string)
    (options : Options.t EventType) (sq : BasicKeySequence.t) :
  sequence (parse' s options) = Some sq ->
  BasicKeySequence.size sq
    = List.length (JsString.split " " (stripSuperfluousWhitespace s))
  /\ BasicKeySequence.size sq
     = count_char " " (stripSuperfluousWhitespace s) + 1
  /\ BasicKeySequence.size sq
     = List.length (nonTerminalCombinations (keyCombinationsArray' s)) + 1
  /\ (~ contains (stripSuperfluousWhitespace s) " " ->
      BasicKeySequence.prefix sq = "").
Proof.
  intros H.
  destruct (parse_success_inv stripSuperfluousWhitespace standardizeKeyName
              isValidKey normalizedCombinationId s options)
    as (ids & term & d & i & Hids & Hterm & Hd & Hi & Hp).
  { left. fold parse'. congruence. }
  fold parse' in Hp. rewrite Hp in H. cbn in H. injection H as <-.
  cbn [BasicKeySequence.size BasicKeySequence.prefix].
  fold keyCombinationsArray'.
  pose proof (length_nonTerminalCombinations (keyCombinationsArray' s)
                (keyCombinationsArray_not_nil _ s)) as Hlen.
  unfold keyCombinationsArray', keyCombinationsArray in *.
  split; [exact Hlen|]. split; [now rewrite Hlen, length_split|].
  split; [reflexivity|].
  intros Hns. apply count_char_contains in Hns.
  rewrite (split_no_separator _ _ Hns) in Hids.
  cbn in Hids. inversion Hids. reflexivity.
Qed.


(** X17: when a token of some combination of the sequence has a
    standardized name that the validity check rejects, [parse] with
    [ensureValidKeys] true returns the two nulls (and what is thrown is
    [InvalidKeyNameError] when no helper throws); with [ensureValidKeys]
    false and helpers that do not throw, [parse] succeeds, and the name is in
    the dictionary of its combination, with the flag true, exactly when it is
    not [__proto__]; this dictionary is the one returned when the
    combination is the terminal one; with [ensureValidKeys] false the
    validity check is never called. *)
Theorem invalid_key_fails_only_when_validating (s : string)
    (keyEventType : EventType) (str tok name : string) :
  In str (keyCombinationsArray' s) ->
  In tok (tokens str) ->
  standardizeKeyName tok (modifierContext str) = inr name ->
  isValidKey name = inr false ->
  parse' s (Options.make keyEventType true) = failure
  /\ ((forall k c, exists n, standardizeKeyName k c = inr n) ->
      total isValidKey -> total normalizedCombinationId ->
      outcome (parse_try' s (Options.make keyEventType true))
      = inl InvalidKeyNameError)
  /\ ((forall k c, exists n, standardizeKeyName k c = inr n) ->
      total normalizedCombinationId ->
      exists sq c d,
        parse' s (Options.make keyEventType false)
        = {| sequence := Some sq; combination := Some c |}
        /\ outcome (parseCombination' str (Options.make keyEventType false))
           = inr d
        /\ (name <> "__proto__" ->
            JsObject.get d name = Some true /\ In name (JsObject.ownKeys d))
        /\ (name = "__proto__" -> ~ In name (JsObject.ownKeys d))
        /\ (terminalCombination (keyCombinationsArray' s) = Some str ->
            BasicKeyCombination.keyDictionary c = d))
  /\ (forall n,
        ~ In (CallIsValidKey n)
            (parse_calls stripSuperfluousWhitespace standardizeKeyName
               isValidKey normalizedCombinationId s
               (Options.make keyEventType false))).
Proof.
  intros Hstr Htok Hname Hinvalid.
  destruct (parseCombination_invalid standardizeKeyName isValidKey
              (Options.make keyEventType true) str tok name
              eq_refl Htok Hname Hinvalid) as [e He].
  destruct (parse_try_combination_error stripSuperfluousWhitespace
              standardizeKeyName isValidKey normalizedCombinationId
              s (Options.make keyEventType true) str e Hstr He) as [e' He'].
  split; [exact (parse_error _ _ _ _ _ _ _ He')|].
  split; [|split].
  - intros Hstd Hvalid Hnorm. fold parse_try' in He'. rewrite He'. f_equal.
    eapply parse_try_error_kind; eauto.
  - intros Hstd Hnorm.
    set (o := Options.make keyEventType false).
    assert (Hacc : forall str', Forall
              (accepted standardizeKeyName isValidKey o (modifierContext str'))
              (tokens str')).
    { intros str'. apply Forall_forall. intros t _.
      destruct (Hstd t (modifierContext str')) as [n Hn].
      exists n. split; [exact Hn|discriminate]. }
    destruct (parse_try_total stripSuperfluousWhitespace standardizeKeyName
                isValidKey normalizedCombinationId s o Hnorm
                (fun str' _ => Hacc str')) as [r Hr].
    pose proof Hr as Hinv.
    apply outcome_parse_try_inv in Hinv
      as (ids & term & d & i & Hterm & Hd & Hi & ->).
    destruct (proj2 (parseCombination_ok_iff standardizeKeyName isValidKey
                       o str) (Hacc str)) as [d' Hd'].
    pose proof (reduce_addKey_inserted standardizeKeyName isValidKey
                  o (modifierContext str) (tokens str) JsObject.empty d'
                  tok name Hd' Htok Hname) as Hget.
    eexists _, _, d'. split; [|split; [exact Hd'|split; [|split]]].
    + unfold parse', parse. fold parse_try'. fold o.
      unfold parse_try'. rewrite Hr. reflexivity.
    + intros Hp. split; [now apply Hget|now apply get_true_in_keys, Hget].
    + intros -> Hin.
      apply (parseCombination_dictionary standardizeKeyName isValidKey)
        in Hd' as (Hkeys & _ & _).
      apply Hkeys in Hin as [Hp _]. now apply Hp.
    + fold keyCombinationsArray' in Hterm. rewrite Hterm. intros [= <-].
      cbn. congruence.
  - intros n H. unfold parse_calls in H.
    apply parse_calls_inv in H as [(str' & _ & H)|(d & [=])].
    revert H. now apply parseCombination_no_validity_call.
Qed.

(** C5: with a normalizer whose result depends on the set of key names only,
    two successful parses whose terminal combinations standardize to the
    same set of names have dictionaries with the same names and the same
    [id]; the [id] is determined by the set of key names of the
    dictionary. *)
Theorem combination_id_order_independent
    (s1 s2 : string) (o1 o2 : Options.t EventType)
    (c1 c2 : BasicKeyCombination.t EventType) (term1 term2 : string) :
  order_independent normalizedCombinationId ->
  combination (parse' s1 o1) = Some c1 ->
  combination (parse' s2 o2) = Some c2 ->
  terminalCombination (keyCombinationsArray' s1) = Some term1 ->
  terminalCombination (keyCombinationsArray' s2) = Some term2 ->
  (same_keys (BasicKeyCombination.keyDictionary c1)
     (BasicKeyCombination.keyDictionary c2) ->
   BasicKeyCombination.id c1 = BasicKeyCombination.id c2)
  /\ ((forall k,
         (exists t, In t (tokens term1)
                    /\ standardizeKeyName t (modifierContext term1) = inr k) <->
         (exists t, In t (tokens term2)
                    /\ standardizeKeyName t (modifierContext term2) = inr k)) ->
      same_keys (BasicKeyCombination.keyDictionary c1)
        (BasicKeyCombination.keyDictionary c2)
      /\ BasicKeyCombination.id c1 = BasicKeyCombination.id c2).
Proof.
  intros Hnorm H1 H2 Ht1 Ht2.
  destruct (parse_success_inv stripSuperfluousWhitespace standardizeKeyName
              isValidKey normalizedCombinationId s1 o1)
    as (ids1 & t1 & d1 & i1 & _ & Ht1' & Hd1 & Hi1 & Hp1).
  { right. fold parse'. congruence. }
  destruct (parse_success_inv stripSuperfluousWhitespace standardizeKeyName
              isValidKey normalizedCombinationId s2 o2)
    as (ids2 & t2 & d2 & i2 & _ & Ht2' & Hd2 & Hi2 & Hp2).
  { right. fold parse'. congruence. }
  fold parse' in Hp1, Hp2. rewrite Hp1 in H1. rewrite Hp2 in H2.
  cbn in H1, H2. injection H1 as <-. injection H2 as <-.
  fold keyCombinationsArray' in Ht1', Ht2'.
  assert (t1 = term1) as -> by congruence.
  assert (t2 = term2) as -> by congruence.
  cbn [BasicKeyCombination.keyDictionary BasicKeyCombination.id].
  apply parseCombination_dictionary in Hd1 as (Hk1 & Hnd1 & Hv1).
  apply parseCombination_dictionary in Hd2 as (Hk2 & Hnd2 & Hv2).
  assert (Hid : same_keys d1 d2 -> i1 = i2).
  { intros Hsame.
    assert (E : normalizedCombinationId d1 = normalizedCombinationId d2)
      by (apply Hnorm; [split; assumption|split; assumption|exact Hsame]).
    congruence. }
  split; [exact Hid|].
  intros Hsets.
  assert (Hsame : same_keys d1 d2)
    by (intros k; rewrite Hk1, Hk2; split; intros [Hp Hx];
        (split; [exact Hp|apply Hsets; exact Hx])).
  split; [exact Hsame|exact (Hid Hsame)].
Qed.

(** C4: the rewrite replaces the [+] of the leftmost match of the pattern
    by [plus] and leaves the rest of the string as it is, whatever follows
    the match (in [a++b++] the second doubled [+] stays); without any match
    the string is unchanged.  The string [+] has the single token [plus],
    and a sequence string that normalizes to [+] parses to a combination
    whose only key is the standardized name of [plus] (a name that is not
    [__proto__]). *)
Theorem plus_escape_first_occurrence_only :
  (forall str,
     (escapePlus str = str
      /\ forall pre g post,
           str = pre ++ g ++ "+" ++ post ->
           ~ qualifies_at (String.length pre) g)
     \/ (exists pre g post,
           str = pre ++ g ++ "+" ++ post
           /\ qualifies_at (String.length pre) g
           /\ escapePlus str = pre ++ g ++ "plus" ++ post
           /\ forall pre' g' post',
                str = pre' ++ g' ++ "+" ++ post' ->
                qualifies_at (String.length pre') g' ->
                String.length pre <= String.length pre'))
  /\ escapePlus "a++b++" = "a+plusb++"
  /\ tokens "+" = ["plus"]
  /\ (forall s (options : Options.t EventType) name i,
        stripSuperfluousWhitespace s = "+" ->
        standardizeKeyName "plus" {| shift := false; alt := false |} = inr name ->
        name <> "__proto__" ->
        (Options.ensureValidKeys options = true -> isValidKey name = inr true) ->
        normalizedCombinationId [(name, true)] = inr i ->
        parse' s options
        = {| sequence := Some (BasicKeySequence.make "" 1);
             combination :=
               Some (BasicKeyCombination.make i [(name, true)]
                       (Options.keyEventType options) 1) |}).
Proof.
  split; [exact escapePlus_spec|]. split; [reflexivity|].
  split; [reflexivity|].
  intros s options name i Hs Hstd Hproto Hvalid Hnorm.
  assert (Hset : JsObject.set JsObject.empty name true = [(name, true)])
    by (now rewrite set_other).
  assert (Hlen : JsObject.keys_length [(name, true)] = 1)
    by (now rewrite keys_length_ownKeys).
  unfold parse', parse. rewrite outcome_parse_try.
  unfold keyCombinationsArray. rewrite Hs. cbn [JsString.split].
  cbn [Ascii.eqb Bool.eqb nonTerminalCombinations terminalCombination
       List.length Nat.sub firstn nth_error mapM outcome ret snd].
  unfold parseCombination.
  change (tokens "+") with ["plus"].
  change (modifierContext "+") with {| shift := false; alt := false |}.
  cbn [reduce]. rewrite !outcome_bind, outcome_addKey, Hstd, Hset.
  destruct (Options.ensureValidKeys options);
    [rewrite Hvalid by reflexivity|];
    cbn [outcome ret snd]; rewrite Hnorm, Hlen; reflexivity.
Qed.

End Claims.

(** ** The sample helpers *)

Lemma leb_trans (a b c : string) :
  String.leb a b = true -> String.leb b c = true -> String.leb a c = true.
Proof.
  unfold String.leb.
  destruct (String.compare a b) eqn:Hab; try discriminate; intros _;
    destruct (String.compare b c) eqn:Hbc; try discriminate; intros _.
  - apply String_as_OT.cmp_eq in Hab, Hbc. subst.
    pose proof (proj2 (String_as_OT.cmp_eq c c) eq_refl) as E.
    unfold String_as_OT.cmp in E. now rewrite E.
  - apply String_as_OT.cmp_eq in Hab. subst. now rewrite Hbc.
  - apply String_as_OT.cmp_eq in Hbc. subst. now rewrite Hab.
  - apply String_as_OT.cmp_lt in Hab, Hbc.
    pose proof (String_as_OT.lt_trans _ _ _ Hab Hbc) as Hac.
    apply String_as_OT.cmp_lt in Hac. unfold String_as_OT.cmp in Hac.
    now rewrite Hac.
Qed.

Lemma insert_sorted_perm k l : Permutation (Helpers.insert_sorted k l) (k :: l).
Proof.
  induction l as [|x l IH]; cbn; [reflexivity|].
  destruct (String.leb k x); [reflexivity|].
  rewrite IH. apply perm_swap.
Qed.

Lemma sort_keys_perm l : Permutation (Helpers.sort_keys l) l.
Proof.
  induction l as [|x l IH]; cbn; [reflexivity|].
  now rewrite insert_sorted_perm, IH.
Qed.

Lemma insert_sorted_sorted k l :
  StronglySorted (fun a b => String.leb a b = true) l ->
  StronglySorted (fun a b => String.leb a b = true) (Helpers.insert_sorted k l).
Proof.
  induction 1 as [|x l Hs IH Hx]; cbn.
  - constructor; constructor.
  - destruct (String.leb k x) eqn:Hkx.
    + constructor; [now constructor|]. constructor; [exact Hkx|].
      eapply Forall_impl; [|exact Hx]. cbn. intros y. now apply leb_trans.
    + constructor; [exact IH|].
      assert (Hxk : String.leb x k = true)
        by (destruct (String.leb_total k x); congruence).
      eapply Permutation_Forall;
        [symmetry; apply insert_sorted_perm|].
      now constructor.
Qed.

Lemma sort_keys_sorted l :
  StronglySorted (fun a b => String.leb a b = true) (Helpers.sort_keys l).
Proof.
  induction l as [|x l IH]; cbn; [constructor|].
  now apply insert_sorted_sorted.
Qed.

Lemma sorted_perm_unique l1 : forall l2,
  StronglySorted (fun a b => String.leb a b = true) l1 ->
  StronglySorted (fun a b => String.leb a b = true) l2 ->
  Permutation l1 l2 -> l1 = l2.
Proof.
  induction l1 as [|a l1 IH]; intros l2 H1 H2 Hp.
  - now apply Permutation_nil in Hp.
  - destruct l2 as [|b l2];
      [symmetry in Hp; now apply Permutation_nil in Hp|].
    inversion H1 as [|? ? Hs1 Ha]; inversion H2 as [|? ? Hs2 Hb]; subst.
    assert (a = b) as ->.
    { assert (Hin_a : In a (b :: l2))
        by (eapply Permutation_in; [exact Hp|now left]).
      assert (Hin_b : In b (a :: l1))
        by (eapply Permutation_in; [symmetry; exact Hp|now left]).
      destruct Hin_a as [->|Hin_a]; [reflexivity|].
      destruct Hin_b as [->|Hin_b]; [reflexivity|].
      rewrite Forall_forall in Ha, Hb.
      apply String.leb_antisym; auto. }
    f_equal. apply IH; auto. now apply Permutation_cons_inv in Hp.
Qed.

(** The sample normalizer depends on the set of key names only. *)
Lemma sample_norm_order_independent : order_independent Helpers.norm.
Proof.
  intros d1 d2 [Hnd1 _] [Hnd2 _] Hsame.
  unfold Helpers.norm, Helpers.normalizedCombinationId. do 2 f_equal.
  apply sorted_perm_unique; try apply sort_keys_sorted.
  rewrite !sort_keys_perm. now apply NoDup_Permutation.
Qed.

(** C3: the claim wants the standardized name of an unrecognized token to
    be in the dictionary when [ensureValidKeys] is false.  The token
    [__proto__] is unrecognized and is its own standardized name: with
    validation the parse fails, and without it the parse succeeds but the
    assignment of line 155 creates no property, so the dictionary of the
    combination is empty and its [size] is 0, where for [foobar] the name is
    recorded and the [size] is 1. *)
Theorem proto_key_not_recorded :
  Helpers.std "__proto__" (modifierContext "__proto__") = inr "__proto__"
  /\ Helpers.valid "__proto__" = inr false
  /\ Helpers.run "__proto__" (Options.make 0 true) = failure
  /\ Helpers.run "__proto__" (Options.make 0 false)
     = {| sequence := Some (BasicKeySequence.make "" 1);
          combination := Some (BasicKeyCombination.make "" [] 0 0) |}
  /\ JsObject.get [] "__proto__" = None
  /\ Helpers.run "foobar" (Options.make 0 false)
     = {| sequence := Some (BasicKeySequence.make "" 1);
          combination :=
            Some (BasicKeyCombination.make "foobar" [("foobar", true)] 0 1) |}.
Proof.
  split; [reflexivity|]. split; [reflexivity|].
  split; [reflexivity|]. split; [vm_compute; reflexivity|].
  split; reflexivity.
Qed.

(** ** The theorems at concrete inputs *)

Lemma parse_failure_policy_witness :
  outcome (parseCombination Helpers.std_throwing Helpers.valid "a+b"
             (Options.make 0 false))
  = inl (Thrown "standardizeKeyName")
  /\ In "a+b" (keyCombinationsArray Helpers.stripSuperfluousWhitespace "a+b c")
  /\ parse Helpers.stripSuperfluousWhitespace Helpers.std_throwing
       Helpers.valid Helpers.norm "a+b c" (Options.make 0 false)
     = failure.
Proof.
  assert (H1 : outcome (parseCombination Helpers.std_throwing Helpers.valid
                          "a+b" (Options.make 0 false))
               = inl (Thrown "standardizeKeyName")) by reflexivity.
  assert (H2 : In "a+b" (keyCombinationsArray
                           Helpers.stripSuperfluousWhitespace "a+b c"))
    by (vm_compute; left; reflexivity).
  split; [exact H1|]. split; [exact H2|].
  exact (proj1 (proj2 (parse_failure_policy Helpers.stripSuperfluousWhitespace
                         Helpers.std_throwing Helpers.valid Helpers.norm
                         "a+b c" (Options.make 0 false)))
           "a+b" (Thrown "standardizeKeyName") H2 H1).
Defined.

Lemma keyEventType_copied_witness :
  combination (Helpers.run "shift+c" (Options.make 7 false))
  = Some (BasicKeyCombination.make "Shift+c" [("Shift", true); ("c", true)] 7 2)
  /\ BasicKeyCombination.keyEventType
       (BasicKeyCombination.make "Shift+c" [("Shift", true); ("c", true)] 7 2)
     = Options.keyEventType (Options.make 7 false).
Proof.
  assert (H : combination (Helpers.run "shift+c" (Options.make 7 false))
              = Some (BasicKeyCombination.make "Shift+c"
                        [("Shift", true); ("c", true)] 7 2))
    by reflexivity.
  split; [exact H|].
  exact (proj1 (keyEventType_copied Helpers.stripSuperfluousWhitespace
                  Helpers.std Helpers.valid Helpers.norm
                  "shift+c" (Options.make 7 false) _ H)).
Defined.

Lemma sequence_size_counts_combinations_witness :
  sequence (Helpers.run "  a+b   c  " (Options.make 0 false))
  = Some (BasicKeySequence.make "a+b" 2)
  /\ BasicKeySequence.size (BasicKeySequence.make "a+b" 2)
     = List.length (JsString.split " "
                      (Helpers.stripSuperfluousWhitespace "  a+b   c  "))
  /\ sequence (Helpers.run "a+b" (Options.make 0 false))
     = Some (BasicKeySequence.make "" 1)
  /\ ~ contains (Helpers.stripSuperfluousWhitespace "a+b") " "
  /\ BasicKeySequence.prefix (BasicKeySequence.make "" 1) = "".
Proof.
  assert (H1 : sequence (Helpers.run "  a+b   c  " (Options.make 0 false))
               = Some (BasicKeySequence.make "a+b" 2)) by reflexivity.
  assert (H2 : sequence (Helpers.run "a+b" (Options.make 0 false))
               = Some (BasicKeySequence.make "" 1)) by reflexivity.
  assert (H3 : ~ contains (Helpers.stripSuperfluousWhitespace "a+b") " ")
    by (intros C; apply indexOf_found_iff in C; discriminate).
  split; [exact H1|]. split.
  - exact (proj1 (sequence_size_counts_combinations
                    Helpers.stripSuperfluousWhitespace Helpers.std
                    Helpers.valid Helpers.norm _ _ _ H1)).
  - split; [exact H2|]. split; [exact H3|].
    exact (proj2 (proj2 (proj2 (sequence_size_counts_combinations
                    Helpers.stripSuperfluousWhitespace Helpers.std
                    Helpers.valid Helpers.norm _ _ _ H2))) H3).
Defined.


Lemma invalid_key_fails_only_when_validating_witness :
  In "foobar+a" (keyCombinationsArray Helpers.stripSuperfluousWhitespace
                   "foobar+a")
  /\ In "foobar" (tokens "foobar+a")
  /\ Helpers.std "foobar" (modifierContext "foobar+a") = inr "foobar"
  /\ Helpers.valid "foobar" = inr false
  /\ Helpers.run "foobar+a" (Options.make 0 true) = failure
  /\ forall n,
       ~ In (CallIsValidKey n)
           (parse_calls Helpers.stripSuperfluousWhitespace Helpers.std
              Helpers.valid Helpers.norm "foobar+a" (Options.make 0 false)).
Proof.
  assert (H1 : In "foobar+a" (keyCombinationsArray
                                Helpers.stripSuperfluousWhitespace "foobar+a"))
    by (vm_compute; left; reflexivity).
  assert (H2 : In "foobar" (tokens "foobar+a"))
    by (vm_compute; left; reflexivity).
  assert (H3 : Helpers.std "foobar" (modifierContext "foobar+a") = inr "foobar")
    by reflexivity.
  assert (H4 : Helpers.valid "foobar" = inr false) by reflexivity.
  pose proof (invalid_key_fails_only_when_validating
                Helpers.stripSuperfluousWhitespace Helpers.std Helpers.valid
                Helpers.norm "foobar+a" 0 "foobar+a" "foobar" "foobar"
                H1 H2 H3 H4) as T.
  split; [exact H1|]. split; [exact H2|]. split; [exact H3|].
  split; [exact H4|]. split; [exact (proj1 T)|].
  exact (proj2 (proj2 (proj2 T))).
Defined.

Lemma combination_id_order_independent_witness :
  order_independent Helpers.norm
  /\ combination (Helpers.run "a+b" (Options.make 0 false))
     = Some (BasicKeyCombination.make "a+b" [("a", true); ("b", true)] 0 2)
  /\ combination (Helpers.run "b+a" (Options.make 0 false))
     = Some (BasicKeyCombination.make "a+b" [("b", true); ("a", true)] 0 2)
  /\ terminalCombination
       (keyCombinationsArray Helpers.stripSuperfluousWhitespace "a+b")
     = Some "a+b"
  /\ terminalCombination
       (keyCombinationsArray Helpers.stripSuperfluousWhitespace "b+a")
     = Some "b+a"
  /\ (same_keys [("a", true); ("b", true)] [("b", true); ("a", true)] ->
      BasicKeyCombination.id
        (BasicKeyCombination.make "a+b" [("a", true); ("b", true)] 0 2)
      = BasicKeyCombination.id
          (BasicKeyCombination.make "a+b" [("b", true); ("a", true)] 0 2)).
Proof.
  assert (H1 : combination (Helpers.run "a+b" (Options.make 0 false))
               = Some (BasicKeyCombination.make "a+b"
                         [("a", true); ("b", true)] 0 2)) by reflexivity.
  assert (H2 : combination (Helpers.run "b+a" (Options.make 0 false))
               = Some (BasicKeyCombination.make "a+b"
                         [("b", true); ("a", true)] 0 2)) by reflexivity.
  assert (H3 : terminalCombination
                 (keyCombinationsArray Helpers.stripSuperfluousWhitespace "a+b")
               = Some "a+b") by reflexivity.
  assert (H4 : terminalCombination
                 (keyCombinationsArray Helpers.stripSuperfluousWhitespace "b+a")
               = Some "b+a") by reflexivity.
  split; [exact sample_norm_order_independent|].
  split; [exact H1|]. split; [exact H2|]. split; [exact H3|].
  split; [exact H4|].
  exact (proj1 (combination_id_order_independent
                  Helpers.stripSuperfluousWhitespace Helpers.std Helpers.valid
                  Helpers.norm "a+b" "b+a" (Options.make 0 false)
                  (Options.make 0 false) _ _ "a+b" "b+a"
                  sample_norm_order_independent H1 H2 H3 H4)).
Defined.

Lemma plus_escape_first_occurrence_only_witness :
  Helpers.stripSuperfluousWhitespace " + " = "+"
  /\ Helpers.std "plus" {| shift := false; alt := false |} = inr "+"
  /\ "+" <> "__proto__"
  /\ (Options.ensureValidKeys (Options.make 0 true) = true ->
      Helpers.valid "+" = inr true)
  /\ Helpers.norm [("+", true)] = inr "+"
  /\ Helpers.run " + " (Options.make 0 true)
     = {| sequence := Some (BasicKeySequence.make "" 1);
          combination :=
            Some (BasicKeyCombination.make "+" [("+", true)] 0 1) |}.
Proof.
  assert (H1 : Helpers.stripSuperfluousWhitespace " + " = "+") by reflexivity.
  assert (H2 : Helpers.std "plus" {| shift := false; alt := false |} = inr "+")
    by reflexivity.
  assert (Hp : "+" <> "__proto__") by discriminate.
  assert (H3 : Options.ensureValidKeys (Options.make 0 true) = true ->
               Helpers.valid "+" = inr true) by reflexivity.
  assert (H4 : Helpers.norm [("+", true)] = inr "+") by reflexivity.
  split; [exact H1|]. split; [exact H2|]. split; [exact Hp|].
  split; [exact H3|]. split; [exact H4|].
  exact (proj2 (proj2 (proj2 (plus_escape_first_occurrence_only
                  Helpers.stripSuperfluousWhitespace Helpers.std Helpers.valid
                  Helpers.norm)))
           " + " (Options.make 0 true) "+" "+" H1 H2 Hp H3 H4).
Defined.

(** ** Further properties of the tokenizer *)

Lemma count_char_append c a b :
  count_char c (a ++ b) = count_char c a + count_char c b.
Proof.
  induction a as [|x a IH]; cbn; [reflexivity|]. rewrite IH. lia.
Qed.

Lemma split_pieces_keep_free c sep s :
  count_char c s = 0 ->
  Forall (fun t => count_char c t = 0) (JsString.split sep s).
Proof.
  induction s as [|x s IH]; cbn [JsString.split count_char].
  - intros _. now constructor.
  - intros H. assert (Hx : (if Ascii.eqb x c then 1 else 0) = 0) by lia.
    assert (Hs : count_char c s = 0) by lia. specialize (IH Hs).
    destruct (Ascii.eqb x sep); [constructor; [reflexivity|exact IH]|].
    destruct (JsString.split sep s) as [|t ts] eqn:E;
      [now apply split_not_nil in E|].
    inversion IH; subst. constructor; [cbn; lia|assumption].
Qed.

(** A doubled [+] always gives the pattern a place to match. *)
Lemma doubled_plus_matches s : forall n,
  contains s "++" ->
  JsString.startsWith s "++" = true
  \/ exists pre g post,
       s = pre ++ g ++ "+" ++ post /\ qualifies_at (n + String.length pre) g.
Proof.
  induction s as [|c s IH]; intros n.
  - rewrite contains_nil. discriminate.
  - rewrite contains_cons. intros [H|H]; [now left|].
    destruct (IH (S n) H) as [Hs|(pre & g & post & E & Hq)].
    + apply startsWith_iff in Hs as [s2 ->]. cbn [append].
      destruct (Ascii.eqb_spec c "+") as [->|Hc]; [now left|].
      right. destruct (JsString.is_space c) eqn:Hsp.
      * exists "", (String c ""), (String "+" s2).
        split; [reflexivity|]. now constructor.
      * exists "", (String c "+"), s2. split; [reflexivity|]. now constructor.
    + right. exists (String c pre), g, post. split; [cbn; now rewrite E|].
      cbn [String.length]. now rewrite Nat.add_succ_r.
Qed.

Lemma rewritten_differs pre g post :
  pre ++ g ++ "plus" ++ post <> pre ++ g ++ "+" ++ post.
Proof.
  intros H. apply (f_equal String.length) in H.
  rewrite !length_append in H. cbn in H. lia.
Qed.

(** X1: the rewrite leaves a combination string as it is exactly when the
    string does not start with [+], has no two [+] in a row and has no white
    space right before a [+]; the tokens are then the pieces between the
    [+]. *)
Theorem escapePlus_unchanged_iff (str : string) :
  (escapePlus str = str <->
   JsString.startsWith str "+" = false
   /\ ~ contains str "++"
   /\ (forall c, JsString.is_space c = true -> ~ contains str (String c "+")))
  /\ (escapePlus str = str -> tokens str = JsString.split "+" str).
Proof.
  split; [|intros H; unfold tokens; now rewrite H].
  destruct (escapePlus_spec str)
    as [[E Hno]|(pre & g & post & Hs & Hq & E & _)].
  - split; [intros _|intros _; exact E].
    split; [|split].
    + destruct (JsString.startsWith str "+") eqn:Hp; [|reflexivity].
      apply startsWith_iff in Hp as [post Hp]. exfalso.
      apply (Hno "" "" post); [exact Hp|constructor].
    + intros Hc.
      destruct (doubled_plus_matches str 0 Hc)
        as [Hp|(pre & g & post & Hs & Hq)].
      * apply startsWith_iff in Hp as [post Hp].
        apply (Hno "" "" (String "+" post)); [exact Hp|constructor].
      * exact (Hno pre g post Hs Hq).
    + intros c Hc (pre & post & Hs).
      apply (Hno pre (String c "") post); [exact Hs|now constructor].
  - split.
    + intros E'. exfalso. rewrite E' in E. rewrite Hs in E at 1.
      symmetry in E. now apply rewritten_differs in E.
    + intros (Hp & Hd & Hw). exfalso.
      inversion Hq as [Hn Hg|n c Hc Hn Hg|n c Hc Hsp Hn Hg]; subst g.
      * destruct pre; [|discriminate]. cbn in Hs. rewrite Hs in Hp.
        discriminate.
      * apply (Hw c Hc). exists pre, post. exact Hs.
      * apply Hd. exists (pre ++ String c ""), post.
        rewrite Hs, !append_assoc. reflexivity.
Qed.

(** X2: a rewrite uses up one [+]: the number of tokens is the number of
    [+] of the combination string when the string is rewritten, and one more
    when it is not. *)
Theorem tokens_length (str : string) :
  List.length (tokens str)
  = count_char "+" str + (if String.eqb (escapePlus str) str then 1 else 0).
Proof.
  unfold tokens. rewrite length_split.
  destruct (escapePlus_spec str)
    as [[E Hno]|(pre & g & post & Hs & Hq & E & _)].
  - rewrite E, String.eqb_refl. reflexivity.
  - assert (Hne : String.eqb (escapePlus str) str = false).
    { apply String.eqb_neq. rewrite E. rewrite Hs at 1.
      apply rewritten_differs. }
    rewrite Hne, E. rewrite Hs at 1.
    rewrite !count_char_append. cbn. lia.
Qed.

(** ** Further properties of [parseCombination] *)

Lemma bind_assoc {A B C} (m : M A) (f : A -> M B) (g : B -> M C) :
  bind (bind m f) g = bind m (fun a => bind (f a) g).
Proof.
  destruct m as [tr [e|a]]; cbn; [reflexivity|].
  destruct (f a) as [tr1 [e|b]]; cbn; [reflexivity|].
  destruct (g b) as [tr2 r]. now rewrite app_assoc.
Qed.

Lemma bind_ret_l {A B} (a : A) (f : A -> M B) : bind (ret a) f = f a.
Proof. unfold ret. cbn. now destruct (f a). Qed.

Lemma reduce_app {A B} (f : B -> A -> M B) (l1 l2 : list A) : forall acc,
  reduce f (l1 ++ l2)%list acc = bind (reduce f l1 acc) (fun acc' => reduce f l2 acc').
Proof.
  induction l1 as [|x l1 IH]; intros acc; cbn [reduce app].
  - now rewrite bind_ret_l.
  - rewrite bind_assoc. destruct (f acc x) as [tr [e|b]]; cbn; [reflexivity|].
    now rewrite IH.
Qed.

Lemma standardized_app a b :
  standardized (a ++ b)%list = (standardized a ++ standardized b)%list.
Proof.
  induction a as [|[k c|k|d] a IH]; cbn; [reflexivity| |assumption|assumption].
  now rewrite IH.
Qed.

Lemma validated_app a b :
  validated (a ++ b)%list = (validated a ++ validated b)%list.
Proof.
  induction a as [|[k c|k|d] a IH]; cbn; [reflexivity|assumption| |assumption].
  now rewrite IH.
Qed.

Lemma normalized_app a b :
  normalized (a ++ b)%list = (normalized a ++ normalized b)%list.
Proof.
  induction a as [|[k c|k|d] a IH]; cbn; [reflexivity|assumption|assumption|].
  now rewrite IH.
Qed.

Lemma ownKeys_define_add_name d k v :
  JsObject.ownKeys (JsObject.define d k v) = add_name (JsObject.ownKeys d) k.
Proof.
  unfold JsObject.ownKeys, add_name.
  induction d as [|[k0 v0] d IH]; cbn; [reflexivity|].
  rewrite (String.eqb_sym k k0).
  destruct (String.eqb k0 k); cbn; [reflexivity|].
  rewrite IH. now destruct (existsb (String.eqb k) (map fst d)).
Qed.

Lemma ownKeys_set_recorded d k v names :
  fold_left add_name (recorded (k :: names)) (JsObject.ownKeys d)
  = fold_left add_name (recorded names)
      (JsObject.ownKeys (JsObject.set d k v)).
Proof.
  unfold recorded, JsObject.set. cbn [filter].
  destruct (String.eqb k "__proto__"); cbn [negb fold_left]; [reflexivity|].
  now rewrite ownKeys_define_add_name.
Qed.

Lemma length_add_name seen name :
  List.length seen <= List.length (add_name seen name) <= S (List.length seen)
  /\ 1 <= List.length (add_name seen name).
Proof.
  unfold add_name. destruct (existsb (String.eqb name) seen) eqn:E.
  - split; [lia|]. destruct seen; [discriminate|cbn; lia].
  - rewrite length_app. cbn. lia.
Qed.

Lemma length_fold_add_name names : forall seen,
  List.length seen <= List.length (fold_left add_name names seen)
                   <= List.length seen + List.length names
  /\ (names <> [] -> 1 <= List.length (fold_left add_name names seen)).
Proof.
  induction names as [|n names IH]; intros seen; cbn [fold_left List.length].
  - split; [lia|congruence].
  - destruct (IH (add_name seen n)) as [IH1 _].
    pose proof (length_add_name seen n). split; [lia|intros _; lia].
Qed.

Section CombinationCalls.

Context {EventType : Type}.
Variable standardizeKeyName : string -> ModifierContext -> exn + string.
Variable isValidKey : string -> exn + bool.

Let addKey' := @addKey EventType standardizeKeyName isValidKey.
Let parseCombination' := @parseCombination EventType standardizeKeyName isValidKey.
Let accepted' := @accepted EventType standardizeKeyName isValidKey.

Lemma trace_addKey_eq (o : Options.t EventType) ctx d k :
  trace (addKey' o ctx d k) =
  CallStandardizeKeyName k ctx ::
  match standardizeKeyName k ctx with
  | inl _ => []
  | inr name =>
      if Options.ensureValidKeys o then [CallIsValidKey name] else []
  end.
Proof.
  unfold addKey', addKey, call_standardizeKeyName, call_isValidKey.
  destruct (standardizeKeyName k ctx) as [e|name]; cbn; [reflexivity|].
  destruct (Options.ensureValidKeys o); cbn; [|reflexivity].
  destruct (isValidKey name) as [e|[|]]; reflexivity.
Qed.

(** The calls and the dictionary of a [reduce] that goes through. *)
Lemma reduce_addKey_calls (o : Options.t EventType) ctx toks : forall d d',
  outcome (reduce (addKey' o ctx) toks d) = inr d' ->
  exists names,
    Forall2 (fun t name => standardizeKeyName t ctx = inr name) toks names
    /\ standardized (trace (reduce (addKey' o ctx) toks d)) = toks
    /\ validated (trace (reduce (addKey' o ctx) toks d))
       = (if Options.ensureValidKeys o then names else [])
    /\ normalized (trace (reduce (addKey' o ctx) toks d)) = []
    /\ JsObject.ownKeys d'
       = fold_left add_name (recorded names) (JsObject.ownKeys d).
Proof.
  induction toks as [|t toks IH]; intros d d'; cbn [reduce].
  - intros [= <-]. exists []. cbn. repeat split; auto.
    now destruct (Options.ensureValidKeys o).
  - rewrite outcome_bind, trace_bind, trace_addKey_eq.
    unfold addKey'. rewrite outcome_addKey.
    destruct (standardizeKeyName t ctx) as [e|name] eqn:Hstd; [discriminate|].
    assert (Hgo : outcome (reduce (addKey' o ctx) toks
                             (JsObject.set d name true)) = inr d' ->
              forall v, v = (if Options.ensureValidKeys o
                             then [CallIsValidKey name] else []) ->
              exists names,
                Forall2 (fun t name => standardizeKeyName t ctx = inr name)
                  (t :: toks) names
                /\ standardized
                     ((CallStandardizeKeyName t ctx :: v)
                      ++ trace (reduce (addKey' o ctx) toks
                                  (JsObject.set d name true)))%list
                   = t :: toks
                /\ validated
                     ((CallStandardizeKeyName t ctx :: v)
                      ++ trace (reduce (addKey' o ctx) toks
                                  (JsObject.set d name true)))%list
                   = (if Options.ensureValidKeys o then names else [])
                /\ normalized
                     ((CallStandardizeKeyName t ctx :: v)
                      ++ trace (reduce (addKey' o ctx) toks
                                  (JsObject.set d name true)))%list
                   = []
                /\ JsObject.ownKeys d'
                   = fold_left add_name (recorded names) (JsObject.ownKeys d)).
    { intros Hr v ->.
      destruct (IH _ _ Hr) as (names & HF & Hs & Hv & Hn & Hk).
      exists (name :: names). split; [now constructor|].
      rewrite standardized_app, validated_app, normalized_app, Hs, Hv, Hn.
      split; [|split; [|split]].
      - now destruct (Options.ensureValidKeys o).
      - now destruct (Options.ensureValidKeys o).
      - now destruct (Options.ensureValidKeys o).
      - now rewrite Hk, <- ownKeys_set_recorded. }
    fold addKey'.
    destruct (Options.ensureValidKeys o);
      [destruct (isValidKey name) as [e|[|]]; try discriminate|];
      intros Hr; exact (Hgo Hr _ eq_refl).
Qed.

(** X3: when [parseCombination] returns, it has called the standardizer once
    per token, in the order of the tokens and nothing else than the tokens;
    with [ensureValidKeys] it has called the validity check once per
    standardized name, in the same order, and otherwise not at all; it never
    calls the normalizer. *)
Theorem parseCombination_calls (str : string) (options : Options.t EventType)
    (d : KeyDictionary) :
  outcome (parseCombination' str options) = inr d ->
  exists names,
    Forall2 (fun t name =>
               standardizeKeyName t (modifierContext str) = inr name)
      (tokens str) names
    /\ standardized (trace (parseCombination' str options)) = tokens str
    /\ validated (trace (parseCombination' str options))
       = (if Options.ensureValidKeys options then names else [])
    /\ normalized (trace (parseCombination' str options)) = [].
Proof.
  intros H. unfold parseCombination', parseCombination in *.
  destruct (reduce_addKey_calls _ _ _ _ _ H) as (names & HF & Hs & Hv & Hn & _).
  exists names. auto.
Qed.

(** X4: [Object.keys] of the dictionary [parseCombination] returns lists
    the array-index names in ascending numeric order and then the other
    names in the order in which they first occur among the standardized
    names of the tokens; [__proto__] is never listed. *)
Theorem dictionary_in_first_occurrence_order (str : string)
    (options : Options.t EventType) (d : KeyDictionary) :
  outcome (parseCombination' str options) = inr d ->
  exists names,
    Forall2 (fun t name =>
               standardizeKeyName t (modifierContext str) = inr name)
      (tokens str) names
    /\ JsObject.keys d = JsObject.enumerate (first_occurrences (recorded names))
    /\ ~ In "__proto__" (JsObject.keys d).
Proof.
  intros H.
  pose proof (parseCombination_dictionary standardizeKeyName isValidKey
                options str d H) as (Hkeys & _ & _).
  unfold parseCombination', parseCombination in *.
  destruct (reduce_addKey_calls _ _ _ _ _ H) as (names & HF & _ & _ & _ & Hk).
  exists names. split; [exact HF|]. split.
  - unfold JsObject.keys. now rewrite Hk.
  - intros Hin. apply (Permutation_in _ (keys_perm d)) in Hin.
    apply Hkeys in Hin as [Hp _]. now apply Hp.
Qed.

(** X5: a dictionary returned by [parseCombination] has at most as many
    keys as the combination string has tokens, and it has at least one key
    exactly when some token has a standardized name other than
    [__proto__]. *)
Theorem dictionary_size_bounds (str : string) (options : Options.t EventType)
    (d : KeyDictionary) :
  outcome (parseCombination' str options) = inr d ->
  JsObject.keys_length d <= List.length (tokens str)
  /\ (1 <= JsObject.keys_length d <->
      exists t name,
        In t (tokens str)
        /\ standardizeKeyName t (modifierContext str) = inr name
        /\ name <> "__proto__").
Proof.
  intros H.
  pose proof (parseCombination_dictionary standardizeKeyName isValidKey
                options str d H) as (Hkeys & _ & _).
  unfold parseCombination', parseCombination in *.
  destruct (reduce_addKey_calls _ _ _ _ _ H) as (names & HF & _ & _ & _ & Hk).
  rewrite keys_length_ownKeys. split.
  - rewrite Hk. change (JsObject.ownKeys JsObject.empty) with (@nil string).
    destruct (length_fold_add_name (recorded names) []) as [Hb _].
    pose proof (Forall2_length HF) as Hlen.
    pose proof (filter_length_le
                  (fun name => negb (String.eqb name "__proto__")) names)
      as Hf.
    fold (recorded names) in Hf. cbn [List.length] in Hb. lia.
  - split.
    + intros Hlen. destruct (JsObject.ownKeys d) as [|k l] eqn:E;
        [cbn in Hlen; lia|].
      destruct (proj1 (Hkeys k)) as (Hp & t & Hin & Hstd);
        [rewrite ?E; now left|].
      exists t, k. auto.
    + intros (t & name & Hin & Hstd & Hp).
      assert (Hk' : In name (JsObject.ownKeys d))
        by (apply Hkeys; split; [exact Hp|eauto]).
      destruct (JsObject.ownKeys d); [contradiction|cbn; lia].
Qed.

(** X6: with [ensureValidKeys], the first token whose standardized name the
    validity check rejects stops the combination: [InvalidKeyNameError] is
    thrown, the tokens after it are not standardized, and the rejected name
    is the last one checked. *)
Theorem invalid_key_stops_combination (str : string)
    (options : Options.t EventType) (pre post : list string)
    (tok name : string) :
  Options.ensureValidKeys options = true ->
  tokens str = (pre ++ tok :: post)%list ->
  Forall (accepted' options (modifierContext str)) pre ->
  standardizeKeyName tok (modifierContext str) = inr name ->
  isValidKey name = inr false ->
  outcome (parseCombination' str options) = inl InvalidKeyNameError
  /\ standardized (trace (parseCombination' str options)) = (pre ++ [tok])%list
  /\ exists names,
       Forall2 (fun t n => standardizeKeyName t (modifierContext str) = inr n)
         pre names
       /\ validated (trace (parseCombination' str options))
          = (names ++ [name])%list.
Proof.
  intros Ho Htoks Hpre Hstd Hinv.
  unfold parseCombination', parseCombination. rewrite Htoks, reduce_app.
  fold addKey'.
  destruct (reduce_addKey_total standardizeKeyName isValidKey options
              (modifierContext str) pre JsObject.empty Hpre) as [d1 Hd1].
  fold addKey' in Hd1.
  destruct (reduce_addKey_calls _ _ _ _ _ Hd1)
    as (names & HF & Hs & Hv & _ & _).
  rewrite Ho in Hv.
  assert (Hout : outcome (addKey' options (modifierContext str) d1 tok)
                 = inl InvalidKeyNameError).
  { unfold addKey'. now rewrite outcome_addKey, Hstd, Ho, Hinv. }
  assert (Htr : trace (addKey' options (modifierContext str) d1 tok)
                = [CallStandardizeKeyName tok (modifierContext str);
                   CallIsValidKey name]).
  { now rewrite trace_addKey_eq, Hstd, Ho. }
  rewrite outcome_bind, trace_bind, Hd1. cbn [reduce].
  rewrite outcome_bind, trace_bind, Hout, Htr, app_nil_r.
  split; [reflexivity|].
  rewrite standardized_app, validated_app, Hs, Hv. cbn.
  split; [reflexivity|]. exists names. auto.
Qed.

End CombinationCalls.

(** ** Further properties of [parse] *)

Lemma trace_mapM_success {A B} (f : A -> M B) (arr : list A) : forall ys,
  outcome (mapM f arr) = inr ys ->
  trace (mapM f arr) = flat_map (fun x => trace (f x)) arr.
Proof.
  induction arr as [|x arr IH]; intros ys; cbn [mapM flat_map];
    [reflexivity|].
  rewrite outcome_bind, trace_bind.
  destruct (outcome (f x)) as [e|y]; [discriminate|].
  rewrite outcome_bind, trace_bind.
  destruct (outcome (mapM f arr)) as [e|ys'] eqn:Hm; [discriminate|].
  intros _. cbn. now rewrite app_nil_r, (IH ys').
Qed.

Lemma mapM_stops {A B} (f : A -> M B) (pre : list A) x0 post e :
  (forall x, In x pre -> exists y, outcome (f x) = inr y) ->
  outcome (f x0) = inl e ->
  outcome (mapM f (pre ++ x0 :: post)%list) = inl e
  /\ trace (mapM f (pre ++ x0 :: post)%list)
     = (flat_map (fun x => trace (f x)) pre ++ trace (f x0))%list.
Proof.
  intros Hpre Hx0. induction pre as [|x pre IH]; cbn [app mapM flat_map].
  - rewrite outcome_bind, trace_bind, Hx0. now rewrite app_nil_r.
  - destruct (Hpre x (or_introl eq_refl)) as [y Hy].
    destruct IH as [IHo IHt]; [intros; apply Hpre; now right|].
    rewrite outcome_bind, trace_bind, Hy, outcome_bind, trace_bind, IHo, IHt.
    now rewrite app_nil_r, app_assoc.
Qed.

Section SequenceCalls.

Context {EventType : Type}.
Variable stripSuperfluousWhitespace : string -> string.
Variable standardizeKeyName : string -> ModifierContext -> exn + string.
Variable isValidKey : string -> exn + bool.
Variable normalizedCombinationId : KeyDictionary -> exn + string.

Let keyCombinationsArray' := keyCombinationsArray stripSuperfluousWhitespace.
Let parseCombination' := @parseCombination EventType standardizeKeyName isValidKey.
Let combinationId' :=
  @combinationId EventType standardizeKeyName isValidKey normalizedCombinationId.
Let parse_try' :=
  @parse_try EventType stripSuperfluousWhitespace standardizeKeyName isValidKey
    normalizedCombinationId.
Let parse' :=
  @parse EventType stripSuperfluousWhitespace standardizeKeyName isValidKey
    normalizedCombinationId.
Let parse_calls' :=
  @parse_calls EventType stripSuperfluousWhitespace standardizeKeyName
    isValidKey normalizedCombinationId.

Lemma combinationId_calls (o : Options.t EventType) str i :
  outcome (combinationId' o str) = inr i ->
  exists d,
    outcome (parseCombination' str o) = inr d
    /\ normalizedCombinationId d = inr i
    /\ standardized (trace (combinationId' o str)) = tokens str
    /\ normalized (trace (combinationId' o str)) = [d].
Proof.
  unfold combinationId', combinationId. fold parseCombination'.
  rewrite outcome_bind, trace_bind.
  destruct (outcome (parseCombination' str o)) as [e|d] eqn:Hd;
    [discriminate|].
  cbn [outcome call_normalizedCombinationId snd trace fst]. intros Hi.
  exists d.
  destruct (reduce_addKey_calls standardizeKeyName isValidKey o
              (modifierContext str) (tokens str) JsObject.empty d Hd)
    as (names & _ & Hs & _ & Hn & _).
  change (standardized (trace (parseCombination' str o)) = tokens str) in Hs.
  change (normalized (trace (parseCombination' str o)) = []) in Hn.
  rewrite standardized_app, normalized_app, Hs, Hn. cbn.
  rewrite app_nil_r. auto.
Qed.

Lemma mapM_combinationId_calls (o : Options.t EventType) arr : forall ids,
  outcome (mapM (combinationId' o) arr) = inr ids ->
  standardized (trace (mapM (combinationId' o) arr)) = flat_map tokens arr
  /\ Forall2 (fun str d => outcome (parseCombination' str o) = inr d) arr
       (normalized (trace (mapM (combinationId' o) arr))).
Proof.
  intros ids H. rewrite (trace_mapM_success _ _ _ H).
  apply outcome_mapM in H.
  induction H as [|str i arr ids Hi _ IH]; cbn [flat_map];
    [split; [reflexivity|constructor]|].
  destruct (combinationId_calls _ _ _ Hi) as (d & Hd & _ & Hs & Hn).
  destruct IH as [IHs IHn].
  rewrite standardized_app, normalized_app, Hs, Hn, IHs.
  split; [reflexivity|]. now constructor.
Qed.

(** X7: the array of combination substrings always splits into the
    non-terminal combinations and one terminal combination, also when the
    normalized string is empty; no combination substring has a space, and
    joined by spaces they give the normalized string back. *)
Theorem keyCombinations_partition (s : string) :
  exists term,
    terminalCombination (keyCombinationsArray' s) = Some term
    /\ keyCombinationsArray' s
       = (nonTerminalCombinations (keyCombinationsArray' s) ++ [term])%list
    /\ Forall (fun str => count_char " " str = 0) (keyCombinationsArray' s)
    /\ JsString.join " " (keyCombinationsArray' s)
       = stripSuperfluousWhitespace s.
Proof.
  destruct (terminalCombination_last (keyCombinationsArray' s)
              (keyCombinationsArray_not_nil _ s)) as (term & Ht & Harr).
  exists term. split; [exact Ht|]. split; [exact Harr|].
  unfold keyCombinationsArray', keyCombinationsArray.
  split; [apply split_pieces_free|apply join_split].
Qed.

(** X8: the [prefix] of a successful parse is the ids the normalizer
    returned for the dictionaries of the non-terminal combinations, in
    their order, joined by single spaces. *)
Theorem prefix_joins_nonterminal_ids (s : string)
    (options : Options.t EventType) (sq : BasicKeySequence.t) :
  sequence (parse' s options) = Some sq ->
  exists ids,
    Forall2 (fun str i =>
               exists d, outcome (parseCombination' str options) = inr d
                         /\ normalizedCombinationId d = inr i)
      (nonTerminalCombinations (keyCombinationsArray' s)) ids
    /\ BasicKeySequence.prefix sq = JsString.join " " ids.
Proof.
  intros H.
  destruct (parse_success_inv stripSuperfluousWhitespace standardizeKeyName
              isValidKey normalizedCombinationId s options)
    as (ids & term & d & i & Hids & _ & _ & _ & Hp).
  { left. fold parse'. congruence. }
  fold parse' in Hp. rewrite Hp in H. cbn in H. injection H as <-.
  exists ids. split; [exact Hids|reflexivity].
Qed.

(** X9: the combination record of a successful parse holds the dictionary
    [parseCombination] returned for the terminal combination and, as [id],
    what the normalizer returned for this dictionary. *)
Theorem combination_id_normalizes_dictionary (s : string)
    (options : Options.t EventType) (c : BasicKeyCombination.t EventType) :
  combination (parse' s options) = Some c ->
  exists term,
    terminalCombination (keyCombinationsArray' s) = Some term
    /\ outcome (parseCombination' term options)
       = inr (BasicKeyCombination.keyDictionary c)
    /\ normalizedCombinationId (BasicKeyCombination.keyDictionary c)
       = inr (BasicKeyCombination.id c).
Proof.
  intros H.
  destruct (parse_success_inv stripSuperfluousWhitespace standardizeKeyName
              isValidKey normalizedCombinationId s options)
    as (ids & term & d & i & _ & Hterm & Hd & Hi & Hp).
  { right. fold parse'. congruence. }
  fold parse' in Hp. rewrite Hp in H. cbn in H. injection H as <-.
  exists term. cbn. auto.
Qed.

(** X10: [parse] succeeds exactly when, for every combination substring,
    [parseCombination] returns a dictionary and the normalizer returns an id
    for it; in every other case the result is the two nulls. *)
Theorem parse_succeeds_iff (s : string) (options : Options.t EventType) :
  ((exists sq c, parse' s options
                 = {| sequence := Some sq; combination := Some c |})
   <-> (forall str, In str (keyCombinationsArray' s) ->
          exists d i, outcome (parseCombination' str options) = inr d
                      /\ normalizedCombinationId d = inr i))
  /\ ((exists sq c, parse' s options
                    = {| sequence := Some sq; combination := Some c |})
      \/ parse' s options = failure).
Proof.
  destruct (terminalCombination_last (keyCombinationsArray' s)
              (keyCombinationsArray_not_nil _ s)) as (term & Ht & Harr).
  split.
  - split.
    + intros (sq & c & Hp).
      destruct (parse_success_inv stripSuperfluousWhitespace standardizeKeyName
                  isValidKey normalizedCombinationId s options)
        as (ids & term' & d & i & Hids & Hterm & Hd & Hi & _).
      { left. fold parse'. rewrite Hp. discriminate. }
      fold keyCombinationsArray' in Hterm, Hids.
      assert (term' = term) as -> by congruence.
      intros str Hin. rewrite Harr, in_app_iff in Hin.
      destruct Hin as [Hin|[<-|[]]]; [|eauto].
      clear Harr. induction Hids as [|x y l l' Hxy _ IH]; [contradiction|].
      destruct Hin as [->|Hin]; [|auto].
      destruct Hxy as (d' & ? & ?). eauto.
    + intros Hall.
      unfold parse', parse. rewrite outcome_parse_try.
      fold keyCombinationsArray'. rewrite Ht.
      destruct (mapM_total
                  (combinationId standardizeKeyName isValidKey
                     normalizedCombinationId options)
                  (nonTerminalCombinations (keyCombinationsArray' s)))
        as [ids ->].
      { intros str Hin. rewrite outcome_combinationId.
        destruct (Hall str) as (d & i & Hd & Hi);
          [rewrite Harr, in_app_iff; now left|].
        unfold parseCombination' in Hd. rewrite Hd. eauto. }
      destruct (Hall term) as (d & i & Hd & Hi);
        [rewrite Harr, in_app_iff; cbn; auto|].
      unfold parseCombination' in Hd. rewrite Hd, Hi. eauto.
  - unfold parse', parse.
    destruct (outcome _) as [e|r] eqn:Hr; [now right|left].
    apply outcome_parse_try_inv in Hr as (ids & t & d & i & _ & _ & _ & ->).
    eauto.
Qed.

Lemma reduce_without_validation (o1 o2 : Options.t EventType) ctx toks :
  Options.ensureValidKeys o2 = false ->
  forall d d',
    outcome (reduce (addKey standardizeKeyName isValidKey o1 ctx) toks d)
    = inr d' ->
    outcome (reduce (addKey standardizeKeyName isValidKey o2 ctx) toks d)
    = inr d'.
Proof.
  intros Ho2. induction toks as [|t toks IH]; intros d d'; cbn [reduce];
    [auto|].
  rewrite !outcome_bind, !outcome_addKey, Ho2.
  destruct (standardizeKeyName t ctx) as [e|name]; [discriminate|].
  destruct (Options.ensureValidKeys o1);
    [destruct (isValidKey name) as [e|[|]]; try discriminate|]; apply IH.
Qed.

(** X11: validation only ever turns a result into the two nulls: when
    [parse] succeeds with some options, it returns the same result with
    [ensureValidKeys] false. *)
Theorem validation_preserves_result (s : string)
    (options : Options.t EventType) (sq : BasicKeySequence.t)
    (c : BasicKeyCombination.t EventType) :
  parse' s options = {| sequence := Some sq; combination := Some c |} ->
  parse' s (Options.make (Options.keyEventType options) false)
  = {| sequence := Some sq; combination := Some c |}.
Proof.
  intros H.
  destruct (parse_success_inv stripSuperfluousWhitespace standardizeKeyName
              isValidKey normalizedCombinationId s options)
    as (ids & term & d & i & Hids & Hterm & Hd & Hi & Hp).
  { left. fold parse'. rewrite H. discriminate. }
  fold parse' in Hp. rewrite <- H, Hp.
  set (o' := Options.make (Options.keyEventType options) false).
  assert (Hpc : forall str d0,
            outcome (parseCombination standardizeKeyName isValidKey
                       str options) = inr d0 ->
            outcome (parseCombination standardizeKeyName isValidKey
                       str o') = inr d0).
  { intros str d0. now apply reduce_without_validation. }
  unfold parse', parse. rewrite outcome_parse_try, Hterm.
  assert (Hm : outcome (mapM (combinationId standardizeKeyName isValidKey
                                normalizedCombinationId o')
                          (nonTerminalCombinations
                             (keyCombinationsArray
                                stripSuperfluousWhitespace s)))
               = inr ids).
  { apply outcome_mapM. eapply Forall2_impl; [|exact Hids].
    cbn. intros str y (d0 & Hd0 & Hy).
    now rewrite outcome_combinationId, (Hpc _ _ Hd0). }
  rewrite Hm, (Hpc _ _ Hd), Hi. reflexivity.
Qed.

(** X12: in a successful parse the standardizer receives the tokens of all
    the combination substrings, in order, once each, and the normalizer
    receives one dictionary per combination substring, in order: the one
    [parseCombination] returned for it. *)
Theorem calls_of_successful_parse (s : string) (options : Options.t EventType)
    (sq : BasicKeySequence.t) (c : BasicKeyCombination.t EventType) :
  parse' s options = {| sequence := Some sq; combination := Some c |} ->
  standardized (parse_calls' s options)
  = flat_map tokens (keyCombinationsArray' s)
  /\ Forall2 (fun str d => outcome (parseCombination' str options) = inr d)
       (keyCombinationsArray' s) (normalized (parse_calls' s options)).
Proof.
  intros H.
  destruct (terminalCombination_last (keyCombinationsArray' s)
              (keyCombinationsArray_not_nil _ s)) as (term & Ht & Harr).
  assert (Hr : exists r, outcome (parse_try' s options) = inr r).
  { unfold parse', parse in H. fold parse_try' in H.
    destruct (outcome (parse_try' s options)) as [e|r]; [discriminate|eauto]. }
  destruct Hr as [r Hr]. pose proof Hr as Hinv.
  unfold parse_try' in Hinv. rewrite outcome_parse_try in Hinv.
  fold keyCombinationsArray' combinationId' parseCombination' in Hinv.
  rewrite Ht in Hinv.
  destruct (outcome (mapM (combinationId' options) _)) as [e|ids] eqn:Hm;
    [discriminate|].
  destruct (outcome (parseCombination' term options)) as [e|d] eqn:Hd;
    [discriminate|].
  destruct (normalizedCombinationId d) as [e|i] eqn:Hi; [discriminate|].
  destruct (mapM_combinationId_calls _ _ _ Hm) as [Hs Hn].
  destruct (reduce_addKey_calls standardizeKeyName isValidKey options
              (modifierContext term) (tokens term) JsObject.empty d Hd)
    as (names & _ & Hts & _ & Htn & _).
  change (standardized (trace (parseCombination' term options)) = tokens term)
    in Hts.
  change (normalized (trace (parseCombination' term options)) = []) in Htn.
  unfold parse_calls', parse_calls, parse_try.
  fold keyCombinationsArray' combinationId' parseCombination'.
  rewrite Ht, trace_bind, Hm, trace_bind, Hd, trace_bind.
  cbn [call_normalizedCombinationId trace fst outcome snd]. rewrite Hi.
  cbn [ret fst].
  rewrite !standardized_app, !normalized_app, Hs, Hts, Htn.
  set (nt := nonTerminalCombinations (keyCombinationsArray' s)) in *.
  clearbody nt. rewrite Harr, flat_map_app. cbn.
  rewrite !app_nil_r. split; [reflexivity|].
  apply Forall2_app; [exact Hn|]. now constructor.
Qed.

(** X13: the first combination substring on which [parseCombination] throws
    ends the parse: what it throws is what the [try] block throws, and the
    combination substrings after it cause no call at all. *)
Theorem first_failure_stops_parse (s : string) (options : Options.t EventType)
    (pre post : list string) (str : string) (e : exn) :
  keyCombinationsArray' s = (pre ++ str :: post)%list ->
  (forall x, In x pre -> exists i, outcome (combinationId' options x) = inr i) ->
  outcome (parseCombination' str options) = inl e ->
  outcome (parse_try' s options) = inl e
  /\ parse_calls' s options
     = (flat_map (fun x => trace (combinationId' options x)) pre
        ++ trace (parseCombination' str options))%list
  /\ parse' s options = failure.
Proof.
  intros Harr Hpre Hstr.
  destruct (terminalCombination_last (keyCombinationsArray' s)
              (keyCombinationsArray_not_nil _ s)) as (term & Ht & Hsplit).
  assert (Hcid : outcome (combinationId' options str) = inl e
                 /\ trace (combinationId' options str)
                    = trace (parseCombination' str options)).
  { unfold combinationId', combinationId. fold parseCombination'.
    rewrite outcome_bind, trace_bind, Hstr. now rewrite app_nil_r. }
  destruct Hcid as [Hco Hct].
  cut (outcome (parse_try' s options) = inl e
       /\ parse_calls' s options
          = (flat_map (fun x => trace (combinationId' options x)) pre
             ++ trace (parseCombination' str options))%list).
  { intros [A B]. split; [exact A|]. split; [exact B|].
    unfold parse', parse. fold parse_try'. now rewrite A. }
  unfold parse_calls', parse_calls, parse_try', parse_try.
  fold keyCombinationsArray' combinationId' parseCombination'.
  rewrite outcome_bind, trace_bind, Ht.
  set (nt := nonTerminalCombinations (keyCombinationsArray' s)) in *.
  clearbody nt.
  destruct post as [|p post'].
  - rewrite Harr in Hsplit. apply app_inj_tail in Hsplit as [Hnt <-].
    rewrite <- Hnt.
    destruct (mapM_total (combinationId' options) pre Hpre) as [ids Hm].
    rewrite Hm, (trace_mapM_success _ _ _ Hm).
    rewrite outcome_bind, trace_bind, Hstr. now rewrite app_nil_r.
  - destruct (exists_last (l := p :: post')) as (post'' & last & Hlast);
      [discriminate|].
    rewrite Harr, Hlast in Hsplit.
    change (pre ++ str :: post'' ++ [last])%list
      with (pre ++ (str :: post'') ++ [last])%list in Hsplit.
    rewrite app_assoc in Hsplit.
    apply app_inj_tail in Hsplit as [Hnt _]. rewrite <- Hnt.
    destruct (mapM_stops (combinationId' options) pre str post'' e Hpre Hco)
      as [Hmo Hmt].
    rewrite Hmo, Hmt, Hct. now rewrite app_nil_r.
Qed.

(** X14: no token handed to the standardizer in a parse contains a [+] or a
    space. *)
Theorem standardizer_never_receives_separators (s : string)
    (options : Options.t EventType) (keyName : string)
    (ctx : ModifierContext) :
  In (CallStandardizeKeyName keyName ctx) (parse_calls' s options) ->
  count_char "+" keyName = 0 /\ count_char " " keyName = 0.
Proof.
  intros H. unfold parse_calls', parse_calls in H.
  apply parse_calls_inv in H as [(str & Hin & H)|(d & [=])].
  unfold parseCombination in H.
  apply trace_reduce_addKey in H
    as [(t & Ht & [= -> _])|(_ & t & name & _ & _ & [=])].
  unfold tokens in Ht.
  pose proof (split_pieces_free "+" (escapePlus str)) as Hplus.
  rewrite Forall_forall in Hplus. split; [now apply Hplus|].
  assert (Hstr : count_char " " str = 0).
  { pose proof (split_pieces_free " " (stripSuperfluousWhitespace s)) as Hsp.
    rewrite Forall_forall in Hsp. now apply Hsp. }
  assert (Hesc : count_char " " (escapePlus str) = 0).
  { destruct (escapePlus_spec str)
      as [[E _]|(pre & g & post & Hs & _ & E & _)]; [now rewrite E|].
    rewrite E. rewrite Hs in Hstr.
    rewrite !count_char_append in *. cbn in *. lia. }
  pose proof (split_pieces_keep_free " " "+" _ Hesc) as Hsp.
  rewrite Forall_forall in Hsp. now apply Hsp.
Qed.

(** X15: an input that normalizes to the empty string is not rejected by the
    parser: the one combination substring is empty, its one token is the
    empty string, and the result is what the helpers make of this token, a
    failure when the standardizer throws and otherwise, when the name (which
    is not [__proto__]) passes the requested validation and the normalizer
    returns, a sequence of size 1 whose combination has that one name. *)
Theorem empty_input_parses_empty_token (s : string)
    (options : Options.t EventType) :
  stripSuperfluousWhitespace s = "" ->
  keyCombinationsArray' s = [""]
  /\ tokens "" = [""]
  /\ standardized (parse_calls' s options) = [""]
  /\ (forall e,
        standardizeKeyName "" {| shift := false; alt := false |} = inl e ->
        parse' s options = failure)
  /\ (forall name i,
        standardizeKeyName "" {| shift := false; alt := false |} = inr name ->
        name <> "__proto__" ->
        (Options.ensureValidKeys options = true -> isValidKey name = inr true) ->
        normalizedCombinationId [(name, true)] = inr i ->
        parse' s options
        = {| sequence := Some (BasicKeySequence.make "" 1);
             combination :=
               Some (BasicKeyCombination.make i [(name, true)]
                       (Options.keyEventType options) 1) |}).
Proof.
  intros Hs.
  assert (Harr : keyCombinationsArray' s = [""])
    by (unfold keyCombinationsArray', keyCombinationsArray; now rewrite Hs).
  split; [exact Harr|]. split; [reflexivity|].
  assert (Hout : outcome (parse_try' s options) =
            match outcome (parseCombination' "" options) with
            | inl e => inl e
            | inr d =>
                match normalizedCombinationId d with
                | inl e => inl e
                | inr i =>
                    inr {| sequence := Some (BasicKeySequence.make "" 1);
                           combination :=
                             Some (BasicKeyCombination.make i d
                                     (Options.keyEventType options)
                                     (JsObject.keys_length d)) |}
                end
            end).
  { unfold parse_try'. rewrite outcome_parse_try.
    fold keyCombinationsArray'. rewrite Harr. reflexivity. }
  assert (Hpc : outcome (parseCombination' "" options) =
            match standardizeKeyName "" {| shift := false; alt := false |} with
            | inl e => inl e
            | inr name =>
                if Options.ensureValidKeys options then
                  match isValidKey name with
                  | inl e => inl e
                  | inr true => inr (JsObject.set JsObject.empty name true)
                  | inr false => inl InvalidKeyNameError
                  end
                else inr (JsObject.set JsObject.empty name true)
            end).
  { unfold parseCombination', parseCombination.
    change (tokens "") with [""].
    change (modifierContext "") with {| shift := false; alt := false |}.
    cbn [reduce]. rewrite outcome_bind, outcome_addKey.
    destruct (standardizeKeyName "" _) as [e|name]; [reflexivity|].
    destruct (Options.ensureValidKeys options); [|reflexivity].
    destruct (isValidKey name) as [e|[|]]; reflexivity. }
  split; [|split].
  - unfold parse_calls', parse_calls, parse_try, keyCombinationsArray.
    rewrite Hs. change (JsString.split " " "") with [""].
    cbn [nonTerminalCombinations terminalCombination List.length Nat.sub
         firstn nth_error mapM].
    unfold parseCombination. change (tokens "") with [""]. cbn [reduce].
    unfold addKey, call_standardizeKeyName, call_isValidKey,
      call_normalizedCombinationId.
    destruct (standardizeKeyName "" (modifierContext "")) as [e|name]; cbn;
      [reflexivity|].
    destruct (Options.ensureValidKeys options); cbn.
    + destruct (isValidKey name) as [e|[|]]; cbn; try reflexivity.
      destruct (normalizedCombinationId _); reflexivity.
    + destruct (normalizedCombinationId _); reflexivity.
  - intros e He. unfold parse', parse. fold parse_try'.
    now rewrite Hout, Hpc, He.
  - intros name i Hn Hp Hv Hi. unfold parse', parse. fold parse_try'.
    rewrite Hout, Hpc, Hn, (set_other _ _ _ Hp).
    assert (Hlen : JsObject.keys_length [(name, true)] = 1)
      by (now rewrite keys_length_ownKeys).
    destruct (Options.ensureValidKeys options);
      [rewrite Hv by reflexivity|]; cbn [JsObject.define JsObject.empty];
      now rewrite Hi, Hlen.
Qed.

End SequenceCalls.

(** X16: the [shift] flag of the modifier context is true exactly when the
    combination substring contains the ten characters [/[sS]hift/], and the
    [alt] flag exactly when it contains the eight characters [/[aA]lt/]; the
    words themselves never set a flag. *)
Theorem modifier_flags_iff_regexp_text (str : string) :
  (shift (modifierContext str) = true <-> contains str "/[sS]hift/")
  /\ (alt (modifierContext str) = true <-> contains str "/[aA]lt/")
  /\ (~ contains str "/" -> modifierContext str = {| shift := false; alt := false |}).
Proof.
  destruct (modifierContext_spec str) as [Hs Ha].
  split; [exact Hs|]. split; [exact Ha|].
  intros Hn.
  assert (Hs' : shift (modifierContext str) = false).
  { destruct (shift (modifierContext str)); [|reflexivity].
    exfalso. apply Hn. destruct (proj1 Hs eq_refl) as (pre & post & E).
    exists pre, ("[sS]hift/" ++ post). exact E. }
  assert (Ha' : alt (modifierContext str) = false).
  { destruct (alt (modifierContext str)); [|reflexivity].
    exfalso. apply Hn. destruct (proj1 Ha eq_refl) as (pre & post & E).
    exists pre, ("[aA]lt/" ++ post). exact E. }
  destruct (modifierContext str) as [sh al]. cbn in *. now subst.
Qed.

(** ** The further properties at concrete inputs *)

Lemma escapePlus_unchanged_iff_witness :
  escapePlus "ctrl+a" = "ctrl+a"
  /\ tokens "ctrl+a" = JsString.split "+" "ctrl+a"
  /\ ~ contains "ctrl+a" "++".
Proof.
  assert (H : escapePlus "ctrl+a" = "ctrl+a") by reflexivity.
  split; [exact H|].
  split; [exact (proj2 (escapePlus_unchanged_iff "ctrl+a") H)|].
  exact (proj1 (proj2 (proj1 (proj1 (escapePlus_unchanged_iff "ctrl+a")) H))).
Defined.

Lemma parseCombination_calls_witness :
  outcome (parseCombination Helpers.std Helpers.valid "ctrl+a"
             (Options.make 0 true))
  = inr [("Control", true); ("a", true)]
  /\ exists names,
       Forall2 (fun t name => Helpers.std t (modifierContext "ctrl+a") = inr name)
         (tokens "ctrl+a") names
       /\ standardized (trace (parseCombination Helpers.std Helpers.valid
                                 "ctrl+a" (Options.make 0 true)))
          = tokens "ctrl+a"
       /\ validated (trace (parseCombination Helpers.std Helpers.valid
                              "ctrl+a" (Options.make 0 true)))
          = (if Options.ensureValidKeys (Options.make 0 true)
             then names else [])
       /\ normalized (trace (parseCombination Helpers.std Helpers.valid
                               "ctrl+a" (Options.make 0 true)))
          = [].
Proof.
  assert (H : outcome (parseCombination Helpers.std Helpers.valid "ctrl+a"
                         (Options.make 0 true))
              = inr [("Control", true); ("a", true)]) by reflexivity.
  split; [exact H|].
  exact (parseCombination_calls Helpers.std Helpers.valid "ctrl+a"
           (Options.make 0 true) _ H).
Defined.

Lemma dictionary_in_first_occurrence_order_witness :
  outcome (parseCombination Helpers.std Helpers.valid "b+1+__proto__+b"
             (Options.make 0 false))
  = inr [("b", true); ("1", true)]
  /\ JsObject.keys [("b", true); ("1", true)] = ["1"; "b"]
  /\ exists names,
       Forall2 (fun t name =>
                  Helpers.std t (modifierContext "b+1+__proto__+b") = inr name)
         (tokens "b+1+__proto__+b") names
       /\ JsObject.keys [("b", true); ("1", true)]
          = JsObject.enumerate (first_occurrences (recorded names))
       /\ ~ In "__proto__" (JsObject.keys [("b", true); ("1", true)]).
Proof.
  assert (H : outcome (parseCombination Helpers.std Helpers.valid
                         "b+1+__proto__+b" (Options.make 0 false))
              = inr [("b", true); ("1", true)]) by reflexivity.
  split; [exact H|]. split; [reflexivity|].
  exact (dictionary_in_first_occurrence_order Helpers.std Helpers.valid
           "b+1+__proto__+b" (Options.make 0 false) _ H).
Defined.

Lemma dictionary_size_bounds_witness :
  outcome (parseCombination Helpers.std Helpers.valid "b+__proto__+b"
             (Options.make 0 false))
  = inr [("b", true)]
  /\ JsObject.keys_length [("b", true)] <= List.length (tokens "b+__proto__+b")
  /\ 1 <= JsObject.keys_length [("b", true)].
Proof.
  assert (H : outcome (parseCombination Helpers.std Helpers.valid
                         "b+__proto__+b" (Options.make 0 false))
              = inr [("b", true)]) by reflexivity.
  split; [exact H|].
  pose proof (dictionary_size_bounds Helpers.std Helpers.valid
                "b+__proto__+b" (Options.make 0 false) _ H) as T.
  split; [exact (proj1 T)|].
  apply (proj2 (proj2 T)). exists "b", "b".
  split; [vm_compute; left; reflexivity|].
  split; [reflexivity|discriminate].
Defined.

Lemma invalid_key_stops_combination_witness :
  Options.ensureValidKeys (Options.make 0 true) = true
  /\ tokens "a+foobar+b" = (["a"] ++ "foobar" :: ["b"])%list
  /\ Forall (accepted Helpers.std Helpers.valid (Options.make 0 true)
               (modifierContext "a+foobar+b")) ["a"]
  /\ Helpers.std "foobar" (modifierContext "a+foobar+b") = inr "foobar"
  /\ Helpers.valid "foobar" = inr false
  /\ outcome (parseCombination Helpers.std Helpers.valid "a+foobar+b"
                (Options.make 0 true))
     = inl InvalidKeyNameError
  /\ standardized (trace (parseCombination Helpers.std Helpers.valid
                            "a+foobar+b" (Options.make 0 true)))
     = (["a"] ++ ["foobar"])%list.
Proof.
  assert (H1 : Options.ensureValidKeys (Options.make 0 true) = true)
    by reflexivity.
  assert (H2 : tokens "a+foobar+b" = (["a"] ++ "foobar" :: ["b"])%list)
    by reflexivity.
  assert (H3 : Forall (accepted Helpers.std Helpers.valid (Options.make 0 true)
                         (modifierContext "a+foobar+b")) ["a"]).
  { constructor; [|constructor]. exists "a". split; reflexivity. }
  assert (H4 : Helpers.std "foobar" (modifierContext "a+foobar+b")
               = inr "foobar") by reflexivity.
  assert (H5 : Helpers.valid "foobar" = inr false) by reflexivity.
  pose proof (invalid_key_stops_combination Helpers.std Helpers.valid
                "a+foobar+b" (Options.make 0 true) ["a"] ["b"] "foobar"
                "foobar" H1 H2 H3 H4 H5) as T.
  split; [exact H1|]. split; [exact H2|]. split; [exact H3|].
  split; [exact H4|]. split; [exact H5|].
  split; [exact (proj1 T)|exact (proj1 (proj2 T))].
Defined.

Lemma prefix_joins_nonterminal_ids_witness :
  sequence (Helpers.run "ctrl+a b shift+c" (Options.make 0 false))
  = Some (BasicKeySequence.make "Control+a b" 3)
  /\ exists ids,
       Forall2 (fun str i =>
                  exists d,
                    outcome (parseCombination Helpers.std Helpers.valid str
                               (Options.make 0 false)) = inr d
                    /\ Helpers.norm d = inr i)
         (nonTerminalCombinations
            (keyCombinationsArray Helpers.stripSuperfluousWhitespace
               "ctrl+a b shift+c")) ids
       /\ BasicKeySequence.prefix (BasicKeySequence.make "Control+a b" 3)
          = JsString.join " " ids.
Proof.
  assert (H : sequence (Helpers.run "ctrl+a b shift+c" (Options.make 0 false))
              = Some (BasicKeySequence.make "Control+a b" 3)) by reflexivity.
  split; [exact H|].
  exact (prefix_joins_nonterminal_ids Helpers.stripSuperfluousWhitespace
           Helpers.std Helpers.valid Helpers.norm
           "ctrl+a b shift+c" (Options.make 0 false) _ H).
Defined.

Lemma combination_id_normalizes_dictionary_witness :
  combination (Helpers.run "b shift+c" (Options.make 0 false))
  = Some (BasicKeyCombination.make "Shift+c" [("Shift", true); ("c", true)] 0 2)
  /\ Helpers.norm [("Shift", true); ("c", true)] = inr "Shift+c".
Proof.
  assert (H : combination (Helpers.run "b shift+c" (Options.make 0 false))
              = Some (BasicKeyCombination.make "Shift+c"
                        [("Shift", true); ("c", true)] 0 2)) by reflexivity.
  split; [exact H|].
  destruct (combination_id_normalizes_dictionary
              Helpers.stripSuperfluousWhitespace Helpers.std Helpers.valid
              Helpers.norm "b shift+c" (Options.make 0 false) _ H)
    as (term & _ & _ & Hn).
  exact Hn.
Defined.

Lemma parse_succeeds_iff_witness :
  (exists sq c, Helpers.run "a+b c" (Options.make 0 true)
                = {| sequence := Some sq; combination := Some c |})
  /\ forall str,
       In str (keyCombinationsArray Helpers.stripSuperfluousWhitespace "a+b c") ->
       exists d i,
         outcome (parseCombination Helpers.std Helpers.valid str
                    (Options.make 0 true)) = inr d
         /\ Helpers.norm d = inr i.
Proof.
  assert (H : exists sq c, Helpers.run "a+b c" (Options.make 0 true)
                           = {| sequence := Some sq; combination := Some c |})
    by (eexists; eexists; reflexivity).
  split; [exact H|].
  exact (proj1 (proj1 (parse_succeeds_iff Helpers.stripSuperfluousWhitespace
                         Helpers.std Helpers.valid Helpers.norm
                         "a+b c" (Options.make 0 true))) H).
Defined.

Lemma validation_preserves_result_witness :
  Helpers.run "a+b c" (Options.make 0 true)
  = {| sequence := Some (BasicKeySequence.make "a+b" 2);
       combination := Some (BasicKeyCombination.make "c" [("c", true)] 0 1) |}
  /\ Helpers.run "a+b c" (Options.make 0 false)
     = {| sequence := Some (BasicKeySequence.make "a+b" 2);
          combination := Some (BasicKeyCombination.make "c" [("c", true)] 0 1) |}.
Proof.
  assert (H : Helpers.run "a+b c" (Options.make 0 true)
              = {| sequence := Some (BasicKeySequence.make "a+b" 2);
                   combination :=
                     Some (BasicKeyCombination.make "c" [("c", true)] 0 1) |})
    by reflexivity.
  split; [exact H|].
  exact (validation_preserves_result Helpers.stripSuperfluousWhitespace
           Helpers.std Helpers.valid Helpers.norm
           "a+b c" (Options.make 0 true) _ _ H).
Defined.

Lemma calls_of_successful_parse_witness :
  Helpers.run "a+b c" (Options.make 0 true)
  = {| sequence := Some (BasicKeySequence.make "a+b" 2);
       combination := Some (BasicKeyCombination.make "c" [("c", true)] 0 1) |}
  /\ standardized (parse_calls Helpers.stripSuperfluousWhitespace Helpers.std
                     Helpers.valid Helpers.norm "a+b c" (Options.make 0 true))
     = flat_map tokens
         (keyCombinationsArray Helpers.stripSuperfluousWhitespace "a+b c").
Proof.
  assert (H : Helpers.run "a+b c" (Options.make 0 true)
              = {| sequence := Some (BasicKeySequence.make "a+b" 2);
                   combination :=
                     Some (BasicKeyCombination.make "c" [("c", true)] 0 1) |})
    by reflexivity.
  split; [exact H|].
  exact (proj1 (calls_of_successful_parse Helpers.stripSuperfluousWhitespace
                  Helpers.std Helpers.valid Helpers.norm
                  "a+b c" (Options.make 0 true) _ _ H)).
Defined.

Lemma first_failure_stops_parse_witness :
  keyCombinationsArray Helpers.stripSuperfluousWhitespace "a x+b c"
  = (["a"] ++ "x+b" :: ["c"])%list
  /\ (forall x, In x ["a"] ->
        exists i,
          outcome (combinationId Helpers.std_throwing Helpers.valid
                     Helpers.norm (Options.make 0 false) x) = inr i)
  /\ outcome (parseCombination Helpers.std_throwing Helpers.valid "x+b"
                (Options.make 0 false))
     = inl (Thrown "standardizeKeyName")
  /\ outcome (parse_try Helpers.stripSuperfluousWhitespace
                Helpers.std_throwing Helpers.valid Helpers.norm "a x+b c"
                (Options.make 0 false))
     = inl (Thrown "standardizeKeyName")
  /\ parse Helpers.stripSuperfluousWhitespace Helpers.std_throwing
       Helpers.valid Helpers.norm "a x+b c" (Options.make 0 false)
     = failure.
Proof.
  assert (H1 : keyCombinationsArray Helpers.stripSuperfluousWhitespace "a x+b c"
               = (["a"] ++ "x+b" :: ["c"])%list) by reflexivity.
  assert (H2 : forall x, In x ["a"] ->
             exists i,
               outcome (combinationId Helpers.std_throwing Helpers.valid
                          Helpers.norm (Options.make 0 false) x) = inr i).
  { intros x [<-|[]]. eexists. reflexivity. }
  assert (H3 : outcome (parseCombination Helpers.std_throwing Helpers.valid
                          "x+b" (Options.make 0 false))
               = inl (Thrown "standardizeKeyName")) by reflexivity.
  pose proof (first_failure_stops_parse Helpers.stripSuperfluousWhitespace
                Helpers.std_throwing Helpers.valid Helpers.norm
                "a x+b c" (Options.make 0 false) ["a"] ["c"] "x+b"
                (Thrown "standardizeKeyName") H1 H2 H3) as T.
  split; [exact H1|]. split; [exact H2|]. split; [exact H3|].
  split; [exact (proj1 T)|exact (proj2 (proj2 T))].
Defined.

Lemma standardizer_never_receives_separators_witness :
  In (CallStandardizeKeyName "plus" {| shift := false; alt := false |})
     (parse_calls Helpers.stripSuperfluousWhitespace Helpers.std
        Helpers.valid Helpers.norm "a++ b" (Options.make 0 false))
  /\ count_char "+" "plus" = 0 /\ count_char " " "plus" = 0.
Proof.
  assert (H : In (CallStandardizeKeyName "plus"
                    {| shift := false; alt := false |})
                (parse_calls Helpers.stripSuperfluousWhitespace Helpers.std
                   Helpers.valid Helpers.norm "a++ b" (Options.make 0 false)))
    by (vm_compute; right; left; reflexivity).
  split; [exact H|].
  exact (standardizer_never_receives_separators
           Helpers.stripSuperfluousWhitespace Helpers.std Helpers.valid
           Helpers.norm "a++ b" (Options.make 0 false) "plus" _ H).
Defined.

Lemma empty_input_parses_empty_token_witness :
  Helpers.stripSuperfluousWhitespace "   " = ""
  /\ standardized (parse_calls Helpers.stripSuperfluousWhitespace Helpers.std
                     Helpers.valid Helpers.norm "   " (Options.make 0 false))
     = [""]
  /\ Helpers.run "   " (Options.make 0 false)
     = {| sequence := Some (BasicKeySequence.make "" 1);
          combination :=
            Some (BasicKeyCombination.make "" [("", true)] 0 1) |}.
Proof.
  assert (H : Helpers.stripSuperfluousWhitespace "   " = "") by reflexivity.
  pose proof (empty_input_parses_empty_token
                Helpers.stripSuperfluousWhitespace Helpers.std Helpers.valid
                Helpers.norm "   " (Options.make 0 false) H) as T.
  split; [exact H|]. split; [exact (proj1 (proj2 (proj2 T)))|].
  refine (proj2 (proj2 (proj2 (proj2 T))) "" "" _ _ _ _);
    [reflexivity|discriminate|discriminate|reflexivity].
Defined.

Lemma modifier_flags_iff_regexp_text_witness :
  ~ contains "shift+alt+a" "/"
  /\ modifierContext "shift+alt+a" = {| shift := false; alt := false |}.
Proof.
  assert (H : ~ contains "shift+alt+a" "/")
    by (intros C; apply indexOf_found_iff in C; discriminate).
  split; [exact H|].
  exact (proj2 (proj2 (modifier_flags_iff_regexp_text "shift+alt+a")) H).
Defined.
